(** * Keyboard arm controller: a shallow embedding of keyboard_arm_control.py

    The Python module keeps its whole state in module globals ([servos],
    [current_angles], [is_recording], [recorded_path], [stop_event]) and
    runs playback and homing in daemon threads.  The embedding threads one
    [State] record through a small state-and-exception monad; the servo
    writes and the console are logged in two more fields of that record,
    and the threads started by [process_command] live in a pool that a
    scheduler event resumes one sleep-to-sleep segment at a time. *)

From Stdlib Require Import ZArith List String Bool Lia.
From Stdlib Require Ascii DecimalString.
From Stdlib.Strings Require Byte.
Import ListNotations.

Local Open Scope string_scope.
Local Open Scope Z_scope.
Local Open Scope list_scope.

(** ** Python dicts

    A dict is insertion ordered: assigning to a key that is present keeps
    its position, assigning to a new key appends it.  Iteration
    ([.items()], [.keys()]) follows that order. *)

Module Dict.

Definition t (V : Type) : Type := list (string * V).

Fixpoint get {V : Type} (k : string) (d : t V) : option V :=
  match d with
  | [] => None
  | (k', v) :: rest => if String.eqb k k' then Some v else get k rest
  end.

Fixpoint set {V : Type} (k : string) (v : V) (d : t V) : t V :=
  match d with
  | [] => [(k, v)]
  | (k', v') :: rest =>
      if String.eqb k k' then (k, v) :: rest else (k', v') :: set k v rest
  end.

Definition mem {V : Type} (k : string) (d : t V) : bool :=
  match get k d with Some _ => true | None => false end.

Definition keys {V : Type} (d : t V) : list string := map fst d.
Definition values {V : Type} (d : t V) : list V := map snd d.
Definition items {V : Type} (d : t V) : list (string * V) := d.

(** [d.copy()]: a fresh dict with the same items; values are immutable
    integers here, so the copy is the value itself. *)
Definition copy {V : Type} (d : t V) : t V := d.

End Dict.

(** ** Configuration *)

Definition PORT : string := "COM7".

Definition SERVO_PINS : Dict.t Z :=
  [ ("base_1", 10); ("base_2", 9); ("shoulder", 11); ("elbow", 6);
    ("arm_bend", 5); ("gripper_rotate", 3); ("gripper_grasp", 4) ].

Definition NEUTRAL_ANGLES : Dict.t Z :=
  [ ("base_1", 180); ("base_2", 0); ("shoulder", 180); ("elbow", 100);
    ("arm_bend", 75); ("gripper_rotate", 90); ("gripper_grasp", 80) ].

Definition INCREMENT : Z := 5.

(** The joints, in the iteration order of [SERVO_PINS]. *)
Definition JOINTS : list string := Eval cbv in Dict.keys SERVO_PINS.

(** ** Observable effects *)

(** What the program prints.  Fixed texts are kept (without their leading
    line feed); formatted texts keep the values that are interpolated. *)
Inductive Output : Type :=
| Line (text : string)
| Configured (name : string) (pin : Z)
| ServoNotFound (name : string)
| RecordingStopped (points : nat)
| Instructions
| Status (cells : list Z) (points : option nat).

(** What a Python call evaluates to, as far as this module goes. *)
Inductive PyVal : Type :=
| PyNone
| PyBool (b : bool)
| PyInt (z : Z).

Inductive Exn : Type :=
| KeyError (key : string).

(** A thread of the pool, as the scheduler sees it between two of its
    [time.sleep] calls. *)
Inductive Thread : Type :=
| PlaybackNew                               (* target=playback_path, not yet run *)
| PlaybackSleeping (next : nat)             (* inside the for loop; index the list iterator reads next *)
| HomeNew                                   (* target=return_to_neutral_slowly, not yet run *)
| HomeSleeping (temp_angles : Dict.t Z)     (* inside the while loop *)
| Finished
| Died (e : Exn).

Record State : Type := mkState {
  servos : Dict.t Z;                 (* name -> configured pin *)
  current_angles : Dict.t Z;
  is_recording : bool;
  recorded_path : list (Dict.t Z);
  stop_event : bool;
  hw : list (string * Z);            (* every servo write, oldest first *)
  console : list Output;             (* everything printed, oldest first *)
  threads : list Thread
}.

Definition set_servos (x : Dict.t Z) (s : State) : State :=
  mkState x (current_angles s) (is_recording s) (recorded_path s)
          (stop_event s) (hw s) (console s) (threads s).
Definition set_current_angles (x : Dict.t Z) (s : State) : State :=
  mkState (servos s) x (is_recording s) (recorded_path s)
          (stop_event s) (hw s) (console s) (threads s).
Definition set_is_recording (x : bool) (s : State) : State :=
  mkState (servos s) (current_angles s) x (recorded_path s)
          (stop_event s) (hw s) (console s) (threads s).
Definition set_recorded_path (x : list (Dict.t Z)) (s : State) : State :=
  mkState (servos s) (current_angles s) (is_recording s) x
          (stop_event s) (hw s) (console s) (threads s).
Definition set_stop_event (x : bool) (s : State) : State :=
  mkState (servos s) (current_angles s) (is_recording s) (recorded_path s)
          x (hw s) (console s) (threads s).
Definition set_hw (x : list (string * Z)) (s : State) : State :=
  mkState (servos s) (current_angles s) (is_recording s) (recorded_path s)
          (stop_event s) x (console s) (threads s).
Definition set_console (x : list Output) (s : State) : State :=
  mkState (servos s) (current_angles s) (is_recording s) (recorded_path s)
          (stop_event s) (hw s) x (threads s).
Definition set_threads (x : list Thread) (s : State) : State :=
  mkState (servos s) (current_angles s) (is_recording s) (recorded_path s)
          (stop_event s) (hw s) (console s) x.

(** ** The monad: global state, and exceptions that keep the state
    reached when they were raised. *)

Inductive Res (A : Type) : Type :=
| Ok (a : A) (s : State)
| Raise (e : Exn) (s : State).
Arguments Ok {A} a s.
Arguments Raise {A} e s.

Definition M (A : Type) : Type := State -> Res A.

Definition ret {A : Type} (a : A) : M A := fun s => Ok a s.

Definition bind {A B : Type} (m : M A) (f : A -> M B) : M B :=
  fun s => match m s with
           | Ok a s' => f a s'
           | Raise e s' => Raise e s'
           end.

Definition gets {A : Type} (f : State -> A) : M A := fun s => Ok (f s) s.
Definition modify (f : State -> State) : M unit := fun s => Ok tt (f s).
Definition raise {A : Type} (e : Exn) : M A := fun s => Raise e s.

Notation "x <- m ;; k" := (bind m (fun x => k))
  (at level 61, m at next level, right associativity).
Notation "m ;; k" := (bind m (fun _ => k))
  (at level 61, right associativity).

(** [d[k]], raising [KeyError] *)
Definition getitem {V : Type} (d : Dict.t V) (k : string) : M V :=
  match Dict.get k d with
  | Some v => ret v
  | None => raise (KeyError k)
  end.

Definition print (o : Output) : M unit :=
  modify (fun s => set_console (console s ++ [o]) s).

(** [servos[name].write(angle)] *)
Definition servo_write (name : string) (angle : Z) : M unit :=
  sv <- gets servos ;;
  _ <- getitem sv name ;;
  modify (fun s => set_hw (hw s ++ [(name, angle)]) s).

(** ** Core functions *)

Definition clamp (angle : Z) : Z := Z.max 0 (Z.min 180 angle).

Definition move_servo (name : string) (angle : Z) : M PyVal :=
  let angle := clamp angle in
  sv <- gets servos ;;
  if Dict.mem name sv then
    modify (fun s => set_current_angles (Dict.set name angle (current_angles s)) s) ;;
    servo_write name angle ;;
    ret PyNone
  else
    print (ServoNotFound name) ;;
    ret PyNone.

Definition record_current_state : M PyVal :=
  rec <- gets is_recording ;;
  if rec then
    modify (fun s => set_recorded_path
                       (recorded_path s ++ [Dict.copy (current_angles s)]) s) ;;
    ret PyNone
  else ret PyNone.

Definition print_status : M PyVal :=
  ca <- gets current_angles ;;
  b1 <- getitem ca "base_1" ;;
  b2 <- getitem ca "base_2" ;;
  sh <- getitem ca "shoulder" ;;
  el <- getitem ca "elbow" ;;
  ab <- getitem ca "arm_bend" ;;
  gr <- getitem ca "gripper_rotate" ;;
  gg <- getitem ca "gripper_grasp" ;;
  rec <- gets is_recording ;;
  path <- gets recorded_path ;;
  print (Status [b1; b2; sh; el; ab; gr; gg]
                (if rec then Some (List.length path) else None)) ;;
  ret PyNone.

Definition print_instructions : M PyVal :=
  print Instructions ;; ret PyNone.

(** [setup_board], on the path where the connection is established (the
    failure path returns [False] and the program stops before its loop). *)
Fixpoint configure_pins (pins : list (string * Z)) : M unit :=
  match pins with
  | [] => ret tt
  | (name, pin) :: rest =>
      modify (fun s => set_servos (Dict.set name pin (servos s)) s) ;;
      print (Configured name pin) ;;
      configure_pins rest
  end.

Fixpoint write_all (its : list (string * Z)) : M unit :=
  match its with
  | [] => ret tt
  | (name, angle) :: rest => servo_write name angle ;; write_all rest
  end.

Definition setup_board : M PyVal :=
  print (Line (String.append "Attempting to connect to Arduino on port "
                 (String.append PORT "..."))) ;;
  print (Line "Connection successful!") ;;
  configure_pins (Dict.items SERVO_PINS) ;;
  print (Line "Moving servos to neutral positions...") ;;
  write_all (Dict.items NEUTRAL_ANGLES) ;;
  print (Line "Initial homing complete. Arm is in neutral position.") ;;
  print_instructions ;;
  ret (PyBool true).

(** The module globals as the import leaves them. *)
Definition globals0 : State :=
  mkState [] (Dict.copy NEUTRAL_ANGLES) false [] false [] [] [].

(** ** Long-running operations

    [return_to_neutral_slowly] and [playback_path] run as thread targets.
    Each is cut at its [time.sleep] calls: a segment runs from the start of
    the function, or from the return of a sleep, to the next sleep or to the
    end of the function, and yields what the thread is afterwards. *)

(** [any(int(temp_angles[name]) != NEUTRAL_ANGLES[name] for name in SERVO_PINS)] *)
Fixpoint any_off_neutral (names : list string) (temp_angles : Dict.t Z) : M bool :=
  match names with
  | [] => ret false
  | name :: rest =>
      current <- getitem temp_angles name ;;
      neutral <- getitem NEUTRAL_ANGLES name ;;
      if negb (current =? neutral) then ret true
      else any_off_neutral rest temp_angles
  end.

(** the [for name in SERVO_PINS.keys()] loop of one homing tick *)
Fixpoint home_for (names : list string) (temp_angles : Dict.t Z) : M (Dict.t Z) :=
  match names with
  | [] => ret temp_angles
  | name :: rest =>
      current <- getitem temp_angles name ;;
      neutral <- getitem NEUTRAL_ANGLES name ;;
      if negb (current =? neutral) then
        let new_angle := if current <? neutral then current + 1 else current - 1 in
        move_servo name new_angle ;;
        home_for rest (Dict.set name new_angle temp_angles)
      else home_for rest temp_angles
  end.

(** the statements after the while loop *)
Definition home_end : M Thread :=
  stop <- gets stop_event ;;
  (if negb stop then print (Line "Arm has returned to neutral position.")
   else ret tt) ;;
  print_status ;;
  ret Finished.

(** from the while condition to the sleep that ends the tick *)
Definition home_while (temp_angles : Dict.t Z) : M Thread :=
  off <- any_off_neutral (Dict.keys SERVO_PINS) temp_angles ;;
  if off then
    stop <- gets stop_event ;;
    if stop then
      print (Line "Return to neutral interrupted.") ;;
      home_end
    else
      temp_angles' <- home_for (Dict.keys SERVO_PINS) temp_angles ;;
      ret (HomeSleeping temp_angles')
  else home_end.

Definition return_to_neutral_slowly : M Thread :=
  rec <- gets is_recording ;;
  if rec then
    print (Line "Cannot return to home while recording.") ;;
    ret Finished
  else
    print (Line "Returning to neutral position slowly...") ;;
    temp_angles <- gets (fun s => Dict.copy (current_angles s)) ;;
    home_while temp_angles.

(** the body of [for name, angle in angles_state.items()] *)
Fixpoint apply_snapshot (its : list (string * Z)) : M unit :=
  match its with
  | [] => ret tt
  | (name, angle) :: rest =>
      servo_write name angle ;;
      modify (fun s => set_current_angles (Dict.set name angle (current_angles s)) s) ;;
      apply_snapshot rest
  end.

(** the statements after the for loop *)
Definition playback_end : M Thread :=
  print (Line "--- Playback Finished ---") ;;
  print_status ;;
  ret Finished.

(** One step of the for loop over the list object [recorded_path]: the
    list iterator holds an index into the live list, so the length is read
    again at every step. *)
Definition playback_for (i : nat) : M Thread :=
  path <- gets recorded_path ;;
  match nth_error path i with
  | None => playback_end
  | Some angles_state =>
      stop <- gets stop_event ;;
      if stop then
        print (Line "Playback interrupted.") ;;
        playback_end
      else
        apply_snapshot (Dict.items angles_state) ;;
        ret (PlaybackSleeping (S i))
  end.

Definition playback_path : M Thread :=
  path <- gets recorded_path ;;
  match path with
  | [] =>
      print (Line "Nothing recorded to play back.") ;;
      ret Finished
  | _ :: _ =>
      print (Line "--- Starting Playback ---") ;;
      playback_for 0
  end.

(** [threading.Thread(target=..., daemon=True).start()] *)
Definition start_thread (target : Thread) : M unit :=
  modify (fun s => set_threads (threads s ++ [target]) s).

(** ** The command dispatcher *)

(** [current_angles[name]] *)
Definition angle_of (name : string) : M Z :=
  ca <- gets current_angles ;;
  getitem ca name.

(** The if/elif chain of [process_command]; the result says whether control
    falls through to the statements after the chain ([false]: the final
    [else] branch returned). *)
Definition dispatch (command : string) : M bool :=
  if String.eqb command "left" then
    a <- angle_of "base_1" ;; move_servo "base_1" (a + INCREMENT) ;;
    b <- angle_of "base_2" ;; move_servo "base_2" (b - INCREMENT) ;;
    ret true
  else if String.eqb command "right" then
    a <- angle_of "base_1" ;; move_servo "base_1" (a - INCREMENT) ;;
    b <- angle_of "base_2" ;; move_servo "base_2" (b + INCREMENT) ;;
    ret true
  else if String.eqb command "down" then
    a <- angle_of "shoulder" ;; move_servo "shoulder" (a + INCREMENT) ;; ret true
  else if String.eqb command "up" then
    a <- angle_of "shoulder" ;; move_servo "shoulder" (a - INCREMENT) ;; ret true
  else if String.eqb command "w" then
    a <- angle_of "elbow" ;; move_servo "elbow" (a + INCREMENT) ;; ret true
  else if String.eqb command "s" then
    a <- angle_of "elbow" ;; move_servo "elbow" (a - INCREMENT) ;; ret true
  else if String.eqb command "t" then
    a <- angle_of "arm_bend" ;; move_servo "arm_bend" (a + INCREMENT) ;; ret true
  else if String.eqb command "y" then
    a <- angle_of "arm_bend" ;; move_servo "arm_bend" (a - INCREMENT) ;; ret true
  else if String.eqb command "a" then
    a <- angle_of "gripper_rotate" ;; move_servo "gripper_rotate" (a + INCREMENT) ;; ret true
  else if String.eqb command "d" then
    a <- angle_of "gripper_rotate" ;; move_servo "gripper_rotate" (a - INCREMENT) ;; ret true
  else if String.eqb command "1" then
    a <- angle_of "gripper_grasp" ;; move_servo "gripper_grasp" (a + INCREMENT) ;; ret true
  else if String.eqb command "2" then
    a <- angle_of "gripper_grasp" ;; move_servo "gripper_grasp" (a - INCREMENT) ;; ret true
  else if String.eqb command "r" then
    rec <- gets is_recording ;;
    (if negb rec then
       modify (set_is_recording true) ;;
       modify (set_recorded_path []) ;;
       print (Line "REC: Recording started. Press 'o' to stop.")
     else print (Line "Already recording.")) ;;
    ret true
  else if String.eqb command "p" then
    rec <- gets is_recording ;;
    (if rec then print (Line "Stop recording ('o') before playing back.")
     else start_thread PlaybackNew) ;;
    ret true
  else if String.eqb command "o" then
    rec <- gets is_recording ;;
    (if rec then
       modify (set_is_recording false) ;;
       path <- gets recorded_path ;;
       print (RecordingStopped (List.length path))
     else print (Line "Not currently recording.")) ;;
    ret true
  else if String.eqb command "h" then
    start_thread HomeNew ;; ret true
  else if String.eqb command "help" then
    print_instructions ;; ret true
  else ret false.

Definition CONTROL_COMMANDS : list string := ["r"; "p"; "o"; "h"; "help"].

Definition process_command (command : string) : M PyVal :=
  fall <- dispatch command ;;
  if fall then
    if negb (existsb (String.eqb command) CONTROL_COMMANDS)
    then record_current_state
    else ret PyNone
  else ret PyNone.

(** ** The running program

    The main loop takes one decoded key at a time; the scheduler resumes a
    thread of the pool for one segment.  Any interleaving of the two is a
    list of events. *)

Inductive Event : Type :=
| Key (command : string)     (* a key that the main loop maps to this command *)
| Esc                        (* the escape key *)
| Tick (tid : nat).          (* the scheduler resumes thread [tid] *)

Definition resume (th : Thread) : M Thread :=
  match th with
  | PlaybackNew => playback_path
  | PlaybackSleeping i => playback_for i
  | HomeNew => return_to_neutral_slowly
  | HomeSleeping temp_angles => home_while temp_angles
  | Finished => ret Finished
  | Died e => ret (Died e)
  end.

Fixpoint replace_nth {A : Type} (n : nat) (x : A) (l : list A) : list A :=
  match l, n with
  | [], _ => []
  | _ :: rest, O => x :: rest
  | y :: rest, S n' => y :: replace_nth n' x rest
  end.

(** An exception raised in a thread ends that thread only. *)
Definition tick (tid : nat) : M unit :=
  fun s =>
    match nth_error (threads s) tid with
    | None => Ok tt s
    | Some th =>
        match resume th s with
        | Ok th' s' => Ok tt (set_threads (replace_nth tid th' (threads s')) s')
        | Raise e s' => Ok tt (set_threads (replace_nth tid (Died e) (threads s')) s')
        end
    end.

(** One pass of the [while not stop_event.is_set()] loop of [main_loop]
    with a key waiting. *)
Definition step (ev : Event) : M unit :=
  match ev with
  | Key command =>
      stop <- gets stop_event ;;
      if stop then ret tt
      else process_command command ;; print_status ;; ret tt
  | Esc =>
      stop <- gets stop_event ;;
      if stop then ret tt
      else print (Line "'Esc' key pressed. Shutting down...") ;;
           modify (set_stop_event true)
  | Tick tid => tick tid
  end.

Fixpoint run (evs : list Event) : M unit :=
  match evs with
  | [] => ret tt
  | ev :: rest => step ev ;; run rest
  end.

(** The state in which [main_loop] starts. *)
Definition boot : State :=
  match setup_board globals0 with
  | Ok _ s => s
  | Raise _ s => s
  end.

(** * Definitions used by the statements and proofs *)

(** The range of every joint, as [move_servo] enforces it. *)
Definition in_range (angle : Z) : Prop := 0 <= angle <= 180.

(** A dict of angles over exactly the configured joints, all in range. *)
Definition angles_ok (d : Dict.t Z) : Prop :=
  Dict.keys d = JOINTS /\ Forall in_range (Dict.values d).

(** A homing thread works on a dict over the configured joints; no thread
    has died. *)
Definition thread_ok (th : Thread) : Prop :=
  match th with
  | HomeSleeping temp_angles => Dict.keys temp_angles = JOINTS
  | Died _ => False
  | _ => True
  end.

(** What holds of every state the program reaches. *)
Record Inv (s : State) : Prop := mkInv {
  inv_servos : Dict.keys (servos s) = JOINTS;
  inv_angles : angles_ok (current_angles s);
  inv_path : Forall angles_ok (recorded_path s);
  inv_threads : Forall thread_ok (threads s)
}.

(** The state after joint [name] was set to [angle] and the servo written. *)
Definition moved (name : string) (angle : Z) (s : State) : State :=
  mkState (servos s) (Dict.set name angle (current_angles s)) (is_recording s)
          (recorded_path s) (stop_event s) (hw s ++ [(name, angle)])
          (console s) (threads s).

(** The state after [o] was printed. *)
Definition printed (o : Output) (s : State) : State :=
  set_console (console s ++ [o]) s.

(** The state after [record_current_state]. *)
Definition recorded (s : State) : State :=
  if is_recording s
  then set_recorded_path (recorded_path s ++ [current_angles s]) s
  else s.

(** The movement commands of [process_command] as a table: the joints a
    command moves, in order, with the signed step of each. *)
Definition moves_of (command : string) : option (list (string * Z)) :=
  if String.eqb command "left" then Some [("base_1", INCREMENT); ("base_2", - INCREMENT)]
  else if String.eqb command "right" then Some [("base_1", - INCREMENT); ("base_2", INCREMENT)]
  else if String.eqb command "down" then Some [("shoulder", INCREMENT)]
  else if String.eqb command "up" then Some [("shoulder", - INCREMENT)]
  else if String.eqb command "w" then Some [("elbow", INCREMENT)]
  else if String.eqb command "s" then Some [("elbow", - INCREMENT)]
  else if String.eqb command "t" then Some [("arm_bend", INCREMENT)]
  else if String.eqb command "y" then Some [("arm_bend", - INCREMENT)]
  else if String.eqb command "a" then Some [("gripper_rotate", INCREMENT)]
  else if String.eqb command "d" then Some [("gripper_rotate", - INCREMENT)]
  else if String.eqb command "1" then Some [("gripper_grasp", INCREMENT)]
  else if String.eqb command "2" then Some [("gripper_grasp", - INCREMENT)]
  else None.

(** The state after one relative move through [move_servo]. *)
Definition jog (s : State) (m : string * Z) : State :=
  match Dict.get (fst m) (current_angles s) with
  | Some a => moved (fst m) (clamp (a + snd m)) s
  | None => s
  end.

Definition jog_all (ms : list (string * Z)) (s : State) : State :=
  fold_left jog ms s.

(** The state after begin-record was accepted. *)
Definition started_recording (s : State) : State :=
  printed (Line "REC: Recording started. Press 'o' to stop.")
          (set_recorded_path [] (set_is_recording true s)).

(** The state after a thread was started. *)
Definition spawned (target : Thread) (s : State) : State :=
  set_threads (threads s ++ [target]) s.

(** The state after one snapshot was written out by [playback_path]. *)
Definition applied (snapshot : Dict.t Z) (s : State) : State :=
  mkState (servos s) snapshot (is_recording s) (recorded_path s) (stop_event s)
          (hw s ++ Dict.items snapshot) (console s) (threads s).

(** What a segment leaves alone. *)
Definition same_control (s s' : State) : Prop :=
  servos s' = servos s /\ is_recording s' = is_recording s /\
  recorded_path s' = recorded_path s /\ stop_event s' = stop_event s /\
  threads s' = threads s.

(** [NEUTRAL_ANGLES[name]] for a configured joint. *)
Definition neutral (name : string) : Z :=
  match Dict.get name NEUTRAL_ANGLES with Some n => n | None => 0 end.

(** Whether some entry of [d] differs from its joint's neutral angle. *)
Definition off_neutral (d : Dict.t Z) : bool :=
  existsb (fun kv => negb (snd kv =? neutral (fst kv))) d.

(** One unit step from [current] toward [target]; nothing when they agree. *)
Definition toward (target current : Z) : Z :=
  if current =? target then current
  else if current <? target then current + 1 else current - 1.

Definition toward_entry (kv : string * Z) : string * Z :=
  (fst kv, toward (neutral (fst kv)) (snd kv)).

(** The angles after one homing tick over every joint. *)
Definition home_tick (d : Dict.t Z) : Dict.t Z := map toward_entry d.

(** A move is held at the limit when clamping brings the requested angle
    back to the angle that is stored. *)
Definition held_at_limit (d : Dict.t Z) (m : string * Z) : Prop :=
  exists a, Dict.get (fst m) d = Some a /\ clamp (a + snd m) = a.

(** A run that has started and not ended. *)
Definition in_flight (th : Thread) : bool :=
  match th with
  | Finished | Died _ => false
  | _ => true
  end.

(** Some playback or homing run is in flight. *)
Definition busy (s : State) : bool := existsb in_flight (threads s).

(** Playback in progress on thread [tid], [i] snapshots written so far. *)
Record Playing (tid i : nat) (s : State) : Prop := mkPlaying {
  playing_inv : Inv s;
  playing_on : stop_event s = false;
  playing_thread : nth_error (threads s) tid = Some (PlaybackSleeping i)
}.

(** A state with three recorded snapshots (shoulder at 175, 170, 165) and
    the session closed. *)
Definition three_moves_recorded : State :=
  match run [Key "r"; Key "up"; Key "up"; Key "up"; Key "o"] boot with
  | Ok _ s => s
  | Raise _ s => s
  end.

(** The stored angles after each command of [commands] in turn. *)
Fixpoint snapshots_after (commands : list string) (s : State) : list (Dict.t Z) :=
  match commands with
  | [] => []
  | command :: rest =>
      match step (Key command) s with
      | Ok _ s' => current_angles s' :: snapshots_after rest s'
      | Raise _ _ => []
      end
  end.

(** [command] is one of the twelve movement commands. *)
Definition is_move (command : string) : Prop := moves_of command <> None.

(** The sum over the joints of the distance to the neutral angle. *)
Fixpoint distance_from_neutral (d : Dict.t Z) : Z :=
  match d with
  | [] => 0
  | (name, angle) :: rest =>
      Z.abs (angle - neutral name) + distance_from_neutral rest
  end.

(** Homing in progress on thread [tid], with nobody else moving the arm:
    the angles the thread works on are the stored ones. *)
Definition homing_thread (s : State) (th : Thread) : Prop :=
  match th with
  | HomeNew => True
  | HomeSleeping temp_angles => temp_angles = current_angles s
  | Finished => off_neutral (current_angles s) = false
  | _ => False
  end.

Record Homing (tid : nat) (s : State) : Prop := mkHoming {
  homing_inv : Inv s;
  homing_on : stop_event s = false;
  homing_idle : is_recording s = false;
  homing_at : exists th, nth_error (threads s) tid = Some th /\ homing_thread s th
}.

(** A state off neutral: shoulder at 170, elbow at 95. *)
Definition moved_away : State :=
  match run [Key "up"; Key "up"; Key "s"] boot with
  | Ok _ s => s
  | Raise _ s => s
  end.

(** ** The status line

    [print_status] writes one line to the console; its [Status] output keeps
    the values that go into the line, and [status_written] is the text. *)

(** [str(n)] for an int *)
Definition str_int (n : Z) : string :=
  DecimalString.NilZero.string_of_int (Z.to_int n).

(** [" " * n], the empty string when [n] is not positive *)
Definition spaces (n : Z) : string :=
  String.concat "" (repeat " " (Z.to_nat n)).

(** [f"{n:3}"]: an int, right aligned in a field of three characters or
    more *)
Definition format3 (n : Z) : string :=
  String.append (spaces (3 - Z.of_nat (String.length (str_int n)))) (str_int n).

Definition angle_str (b1 b2 sh el ab gr gg : Z) : string :=
  String.concat ""
    [ "Base: "; format3 b1; "/"; format3 b2; " | Shoulder: "; format3 sh;
      " | Elbow: "; format3 el; " | "; "Arm Bend: "; format3 ab;
      " | Rotate: "; format3 gr; " | Grasp: "; format3 gg ].

(** [points] is the number of recorded points when a session is active. *)
Definition rec_str (points : option nat) : string :=
  match points with
  | Some n => String.append " | REC: ON | Points: " (str_int (Z.of_nat n))
  | None => ""
  end.

(** the carriage return, then the angles, then the recording part *)
Definition status_line (b1 b2 sh el ab gr gg : Z) (points : option nat) : string :=
  String (Ascii.ascii_of_nat 13)
         (String.append (angle_str b1 b2 sh el ab gr gg) (rec_str points)).

(** what [sys.stdout.write] receives: the line, padded to 79 characters *)
Definition status_written (b1 b2 sh el ab gr gg : Z) (points : option nat) : string :=
  let line := status_line b1 b2 sh el ab gr gg points in
  String.append line (spaces (79 - Z.of_nat (String.length line))).


(** ** The main loop

    [msvcrt.kbhit] and [msvcrt.getch] read the console's key buffer, a list
    of bytes here; [main_loop_keys] is the while loop of [main_loop] run
    until the buffer is drained. *)

(** [try: ... except: pass] *)
Definition try_pass {A : Type} (m : M A) : M unit :=
  fun s => match m s with
           | Ok _ s' => Ok tt s'
           | Raise _ s' => Ok tt s'
           end.

(** the second byte of a special key, after the prefix [b'\xe0'] *)
Definition special_key (key2 : Byte.byte) : M unit :=
  try_pass
    (if Byte.eqb key2 Byte.x48 then process_command "up"            (* b'H' *)
     else if Byte.eqb key2 Byte.x50 then process_command "down"     (* b'P' *)
     else if Byte.eqb key2 Byte.x4b then process_command "left"     (* b'K' *)
     else if Byte.eqb key2 Byte.x4d then process_command "right"    (* b'M' *)
     else ret PyNone).

(** [key.decode('utf-8')] of a single byte: [None] stands for
    [UnicodeDecodeError] *)
Definition decode_utf8 (key : Byte.byte) : option string :=
  if (Byte.to_N key <? 128)%N
  then Some (String (Ascii.ascii_of_byte key) EmptyString)
  else None.

Definition NORMAL_KEYS : list string :=
  ["w"; "s"; "t"; "y"; "a"; "d"; "1"; "2"; "r"; "o"; "p"; "h"].

(** a letter or a digit *)
Definition normal_key (key : Byte.byte) : M unit :=
  match decode_utf8 key with
  | Some char =>
      if String.eqb char "?" then process_command "help" ;; ret tt
      else if existsb (String.eqb char) NORMAL_KEYS
           then process_command char ;; ret tt
           else ret tt
  | None => ret tt
  end.

(** Where the main thread is when the key buffer is drained. *)
Inductive LoopState : Type :=
| Polling          (* in the loop, no key waiting *)
| InGetch          (* blocked in the second [getch] of a special key *)
| Exited.          (* out of the loop *)

Fixpoint main_loop_keys (keys : list Byte.byte) : M LoopState :=
  stop <- gets stop_event ;;
  if stop then ret Exited
  else
    match keys with
    | [] => ret Polling
    | key :: rest =>
        if Byte.eqb key Byte.xe0 then
          match rest with
          | [] => ret InGetch
          | key2 :: rest' =>
              special_key key2 ;; print_status ;; main_loop_keys rest'
          end
        else if Byte.eqb key Byte.x1b then
          print (Line "'Esc' key pressed. Shutting down...") ;;
          modify (set_stop_event true) ;;
          ret Exited
        else
          normal_key key ;; print_status ;; main_loop_keys rest
    end.

Definition main_loop (keys : list Byte.byte) : M LoopState :=
  print_status ;; main_loop_keys keys.

(** ** More definitions for the statements *)

Definition MOVE_COMMANDS : list string :=
  ["left"; "right"; "down"; "up"; "w"; "s"; "t"; "y"; "a"; "d"; "1"; "2"].



(** A state with a playback thread between its first and second step. *)
Definition playback_under_way : State :=
  match run [Key "p"; Tick 0] three_moves_recorded with
  | Ok _ s => s
  | Raise _ s => s
  end.

(** A state with a homing thread under way (shoulder at 171 on its way to
    180) and the stop signal set. *)
Definition homing_stopped : State :=
  match run [Key "up"; Key "up"; Key "h"; Tick 0; Esc] boot with
  | Ok _ s => s
  | Raise _ s => s
  end.

(** A state in which homing has brought its copy to neutral (five ticks
    for the shoulder) and a later key has moved the elbow to 105. *)
Definition moved_during_homing : State :=
  match run [Key "up"; Key "h"; Tick 0; Tick 0; Tick 0; Tick 0; Tick 0; Key "w"]
            boot with
  | Ok _ s => s
  | Raise _ s => s
  end.

(** * Properties *)

(** ** Dict lemmas *)

Module DictFacts.
Section Facts.
Context {V : Type}.
Implicit Types (d pre : Dict.t V) (k : string) (v : V).

Lemma get_set_eq k v d : Dict.get k (Dict.set k v d) = Some v.
Proof.
  induction d as [|[k' v'] d IH]; simpl.
  - now rewrite String.eqb_refl.
  - destruct (String.eqb_spec k k') as [->|Hne]; simpl.
    + now rewrite String.eqb_refl.
    + destruct (String.eqb_spec k k'); [contradiction | exact IH].
Qed.

Lemma get_set_ne k k' v d :
  k <> k' -> Dict.get k' (Dict.set k v d) = Dict.get k' d.
Proof.
  intros Hne. induction d as [|[k0 v0] d IH]; simpl.
  - destruct (String.eqb_spec k' k); [congruence | reflexivity].
  - destruct (String.eqb_spec k k0) as [->|Hk]; simpl.
    + destruct (String.eqb_spec k' k0); [congruence | reflexivity].
    + destruct (String.eqb_spec k' k0); [reflexivity | exact IH].
Qed.

Lemma get_in_keys k d : In k (Dict.keys d) -> exists v, Dict.get k d = Some v.
Proof.
  induction d as [|[k' v'] d IH]; simpl; [tauto|].
  intros [->|Hin].
  - rewrite String.eqb_refl. eauto.
  - destruct (String.eqb k k'); eauto.
Qed.

Lemma mem_in_keys k d : In k (Dict.keys d) -> Dict.mem k d = true.
Proof.
  intros H. unfold Dict.mem. destruct (get_in_keys k d H) as [v ->]. reflexivity.
Qed.

Lemma keys_set_in k v d :
  In k (Dict.keys d) -> Dict.keys (Dict.set k v d) = Dict.keys d.
Proof.
  induction d as [|[k' v'] d IH]; simpl; [tauto|].
  intros Hin. destruct (String.eqb_spec k k') as [->|Hne]; simpl.
  - reflexivity.
  - f_equal. apply IH. destruct Hin; [congruence | assumption].
Qed.

Lemma set_same k v d : Dict.get k d = Some v -> Dict.set k v d = d.
Proof.
  induction d as [|[k' v'] d IH]; simpl; [discriminate|].
  destruct (String.eqb_spec k k') as [->|Hne].
  - intros [= ->]. reflexivity.
  - intros H. f_equal. auto.
Qed.

Lemma values_set (P : V -> Prop) k v d :
  P v -> Forall P (Dict.values d) -> Forall P (Dict.values (Dict.set k v d)).
Proof.
  intros Hv. induction d as [|[k' v'] d IH]; simpl; intros Hd.
  - constructor; [assumption | constructor].
  - inversion Hd; subst. destruct (String.eqb k k'); simpl; constructor; auto.
Qed.

Lemma get_values (P : V -> Prop) k v d :
  Forall P (Dict.values d) -> Dict.get k d = Some v -> P v.
Proof.
  induction d as [|[k' v'] d IH]; simpl; [discriminate|].
  intros Hd. inversion Hd; subst.
  destruct (String.eqb k k'); [intros [= <-]; assumption | auto].
Qed.

Lemma get_app_notin k pre d :
  ~ In k (Dict.keys pre) -> Dict.get k (pre ++ d) = Dict.get k d.
Proof.
  induction pre as [|[k' v'] pre IH]; simpl; [reflexivity|].
  intros Hn. destruct (String.eqb_spec k k') as [->|Hne]; [tauto|].
  apply IH. tauto.
Qed.

Lemma set_app_notin k v pre d :
  ~ In k (Dict.keys pre) -> Dict.set k v (pre ++ d) = pre ++ Dict.set k v d.
Proof.
  induction pre as [|[k' v'] pre IH]; simpl; [reflexivity|].
  intros Hn. destruct (String.eqb_spec k k') as [->|Hne]; [tauto|].
  f_equal. apply IH. tauto.
Qed.

End Facts.
End DictFacts.

(** ** Sequencing *)

Lemma bind_ok {A B : Type} (m : M A) (f : A -> M B) s a s' :
  m s = Ok a s' -> bind m f s = f a s'.
Proof. unfold bind. now intros ->. Qed.

(** ** The state invariant *)

Lemma clamp_in_range angle : in_range (clamp angle).
Proof. unfold in_range, clamp. lia. Qed.

Lemma clamp_id angle : in_range angle -> clamp angle = angle.
Proof. unfold in_range, clamp. lia. Qed.

Lemma boot_eq :
  setup_board globals0 =
  Ok (PyBool true)
     (mkState SERVO_PINS NEUTRAL_ANGLES false [] false (Dict.items NEUTRAL_ANGLES)
        (console boot) []).
Proof. reflexivity. Qed.

Lemma Inv_boot : Inv boot.
Proof.
  split; try (now constructor).
  split; [reflexivity|].
  unfold in_range. repeat constructor; simpl; lia.
Qed.

Lemma keys_joints (d : Dict.t Z) :
  Dict.keys d = JOINTS ->
  exists v1 v2 v3 v4 v5 v6 v7,
    d = [ ("base_1", v1); ("base_2", v2); ("shoulder", v3); ("elbow", v4);
          ("arm_bend", v5); ("gripper_rotate", v6); ("gripper_grasp", v7) ].
Proof.
  unfold Dict.keys, JOINTS. intros H.
  repeat (destruct d as [|[? ?] d]; simpl in H; [discriminate H|];
          injection H as -> H).
  destruct d; [|discriminate H].
  repeat eexists.
Qed.

Lemma NoDup_JOINTS : NoDup JOINTS.
Proof.
  unfold JOINTS.
  repeat (constructor;
          [simpl; intros Hin;
           repeat (destruct Hin as [Hin|Hin]; [discriminate Hin|]); exact Hin|]).
  constructor.
Qed.

Lemma Inv_with s s' :
  Inv s ->
  servos s' = servos s ->
  angles_ok (current_angles s') ->
  Forall angles_ok (recorded_path s') ->
  Forall thread_ok (threads s') ->
  Inv s'.
Proof. intros [H1 H2 H3 H4] E ? ? ?. split; auto. now rewrite E. Qed.

Lemma angles_ok_set name angle d :
  In name JOINTS -> in_range angle -> angles_ok d -> angles_ok (Dict.set name angle d).
Proof.
  intros Hin Hr [Hk Hv]. split.
  - rewrite DictFacts.keys_set_in; [assumption | now rewrite Hk].
  - now apply DictFacts.values_set.
Qed.

Lemma angles_ok_get name d :
  In name JOINTS -> angles_ok d -> exists a, Dict.get name d = Some a /\ in_range a.
Proof.
  intros Hin [Hk Hv]. rewrite <- Hk in Hin.
  destruct (DictFacts.get_in_keys _ _ Hin) as [a Ha].
  exists a. split; [assumption|]. eapply DictFacts.get_values; eauto.
Qed.

Lemma Inv_mem name s : Inv s -> In name JOINTS -> Dict.mem name (servos s) = true.
Proof.
  intros HI Hin. apply DictFacts.mem_in_keys. now rewrite (inv_servos _ HI).
Qed.

(** ** Equations of the elementary operations *)

Lemma move_servo_eq name angle s :
  Dict.mem name (servos s) = true ->
  move_servo name angle s = Ok PyNone (moved name (clamp angle) s).
Proof.
  intros Hm. unfold move_servo, bind, gets. rewrite Hm.
  unfold modify, servo_write, bind, gets, getitem. simpl.
  unfold Dict.mem in Hm. destruct (Dict.get name (servos s)); [reflexivity | discriminate].
Qed.

Lemma move_servo_unknown name angle s :
  Dict.mem name (servos s) = false ->
  move_servo name angle s = Ok PyNone (printed (ServoNotFound name) s).
Proof. intros Hm. unfold move_servo, bind, gets. now rewrite Hm. Qed.

Lemma record_current_state_eq s :
  record_current_state s = Ok PyNone (recorded s).
Proof.
  unfold record_current_state, recorded, bind, gets. now destruct (is_recording s).
Qed.

Lemma print_status_eq s :
  Dict.keys (current_angles s) = JOINTS ->
  exists cells,
    print_status s =
    Ok PyNone (printed (Status cells (if is_recording s
                                      then Some (List.length (recorded_path s))
                                      else None)) s).
Proof.
  intros Hk. destruct (keys_joints _ Hk) as (v1 & v2 & v3 & v4 & v5 & v6 & v7 & E).
  exists [v1; v2; v3; v4; v5; v6; v7].
  unfold print_status, bind, gets. rewrite E. reflexivity.
Qed.

Lemma Inv_moved name angle s :
  In name JOINTS -> in_range angle -> Inv s -> Inv (moved name angle s).
Proof.
  intros Hin Hr HI. apply (Inv_with s); try apply HI; [reflexivity|].
  simpl. apply angles_ok_set; auto. apply HI.
Qed.

Lemma Inv_printed o s : Inv s -> Inv (printed o s).
Proof. intros HI. apply (Inv_with s); try apply HI. reflexivity. Qed.

Lemma Inv_recorded s : Inv s -> Inv (recorded s).
Proof.
  intros HI. unfold recorded. destruct (is_recording s); [|assumption].
  apply (Inv_with s); try apply HI; [reflexivity|]. simpl.
  apply Forall_app. split; [apply HI|]. constructor; [apply HI | constructor].
Qed.

(** ** The dispatcher as a table *)

Lemma jog_step {B : Type} name delta (k : M B) s :
  Inv s -> In name JOINTS ->
  (a <- angle_of name ;; move_servo name (a + delta) ;; k) s
  = k (jog s (name, delta)).
Proof.
  intros HI Hin.
  destruct (angles_ok_get name _ Hin (inv_angles _ HI)) as (a & Ha & _).
  unfold jog, angle_of, bind, gets, getitem. simpl. rewrite Ha. simpl.
  rewrite move_servo_eq by now apply Inv_mem. reflexivity.
Qed.

Lemma jog_step_sub {B : Type} name delta (k : M B) s :
  Inv s -> In name JOINTS ->
  (a <- angle_of name ;; move_servo name (a - delta) ;; k) s
  = k (jog s (name, - delta)).
Proof. exact (jog_step name (- delta) k s). Qed.

Lemma Inv_jog s m : In (fst m) JOINTS -> Inv s -> Inv (jog s m).
Proof.
  intros Hin HI. unfold jog. destruct (Dict.get _ _); [|assumption].
  apply Inv_moved; auto using clamp_in_range.
Qed.

Lemma moves_of_joints command ms :
  moves_of command = Some ms -> Forall (fun m => In (fst m) JOINTS) ms.
Proof.
  unfold moves_of.
  repeat (destruct (String.eqb command _);
          [intros [= <-]; repeat constructor; simpl; tauto|]).
  discriminate.
Qed.

Lemma Inv_jog_all ms s :
  Forall (fun m => In (fst m) JOINTS) ms -> Inv s -> Inv (jog_all ms s).
Proof.
  unfold jog_all. revert s. induction ms as [|m ms IH]; simpl; intros s Hms HI.
  - assumption.
  - inversion Hms; subst. apply IH; [assumption|]. now apply Inv_jog.
Qed.

Ltac in_joints := unfold JOINTS; simpl; tauto.

(** [process_command] on a movement command: the moves, then one call of
    [record_current_state]. *)
Lemma process_command_move command ms s :
  moves_of command = Some ms -> Inv s ->
  process_command command s = Ok PyNone (recorded (jog_all ms s)).
Proof.
  unfold moves_of, process_command, dispatch. intros Hm HI.
  repeat match type of Hm with
  | (if String.eqb command ?c then _ else _) = _ =>
      destruct (String.eqb_spec command c) as [->|?];
      [ injection Hm as <-;
        unfold bind at 1;
        repeat (first [rewrite jog_step | rewrite jog_step_sub];
                [| try apply Inv_jog; try assumption; simpl; in_joints | in_joints ]);
        simpl; apply record_current_state_eq | ]
  end.
  discriminate.
Qed.

Create HintDb arm_inv.
#[local] Hint Resolve Inv_moved Inv_printed Inv_recorded Inv_jog Inv_jog_all
  clamp_in_range : arm_inv.

(** ** Control commands *)

Lemma process_command_r s :
  process_command "r" s =
  Ok PyNone (if is_recording s then printed (Line "Already recording.") s
             else started_recording s).
Proof.
  unfold process_command, dispatch, bind, gets. simpl.
  now destruct (is_recording s).
Qed.

Lemma process_command_p s :
  process_command "p" s =
  Ok PyNone (if is_recording s
             then printed (Line "Stop recording ('o') before playing back.") s
             else spawned PlaybackNew s).
Proof.
  unfold process_command, dispatch, bind, gets. simpl.
  now destruct (is_recording s).
Qed.

Lemma process_command_o s :
  process_command "o" s =
  Ok PyNone (if is_recording s
             then printed (RecordingStopped (List.length (recorded_path s)))
                          (set_is_recording false s)
             else printed (Line "Not currently recording.") s).
Proof.
  unfold process_command, dispatch, bind, gets. simpl.
  now destruct (is_recording s).
Qed.

Lemma process_command_h s :
  process_command "h" s = Ok PyNone (spawned HomeNew s).
Proof. reflexivity. Qed.

Lemma process_command_help s :
  process_command "help" s = Ok PyNone (printed Instructions s).
Proof. reflexivity. Qed.

(** Every other token falls into the final [else] and changes nothing. *)
Lemma process_command_other command s :
  moves_of command = None -> ~ In command CONTROL_COMMANDS ->
  process_command command s = Ok PyNone s.
Proof.
  unfold moves_of, process_command, dispatch, CONTROL_COMMANDS.
  intros Hm Hc. revert Hm.
  repeat (destruct (String.eqb command _); [intros Hm; discriminate Hm|]).
  intros _.
  repeat match goal with
  | |- context [String.eqb command ?c] =>
      destruct (String.eqb_spec command c) as [->|?]; [exfalso; apply Hc; simpl; tauto|]
  end.
  reflexivity.
Qed.

Lemma Inv_spawned target s : thread_ok target -> Inv s -> Inv (spawned target s).
Proof.
  intros Ht HI. apply (Inv_with s); try apply HI; [reflexivity|]. simpl.
  apply Forall_app. split; [apply HI | now repeat constructor].
Qed.

Lemma Inv_flag b s : Inv s -> Inv (set_is_recording b s).
Proof. intros HI. apply (Inv_with s); try apply HI. reflexivity. Qed.

Lemma Inv_stop b s : Inv s -> Inv (set_stop_event b s).
Proof. intros HI. apply (Inv_with s); try apply HI. reflexivity. Qed.

Lemma Inv_started_recording s : Inv s -> Inv (started_recording s).
Proof.
  intros HI. apply (Inv_with s); try apply HI; [reflexivity | constructor].
Qed.

#[local] Hint Resolve Inv_spawned Inv_flag Inv_stop Inv_started_recording : arm_inv.

Lemma control_cases command :
  In command CONTROL_COMMANDS ->
  command = "r" \/ command = "p" \/ command = "o" \/ command = "h" \/ command = "help".
Proof. simpl. intuition auto. Qed.

(** [process_command] always returns on a state that satisfies the
    invariant, keeps the invariant and never touches the stop signal. *)
Lemma process_command_inv command s :
  Inv s ->
  exists s', process_command command s = Ok PyNone s' /\ Inv s'
             /\ stop_event s' = stop_event s.
Proof.
  intros HI. destruct (moves_of command) as [ms|] eqn:Hm.
  - eexists. split; [apply (process_command_move _ ms); assumption|].
    pose proof (Inv_jog_all ms s (moves_of_joints _ _ Hm) HI) as HJ.
    split; [now apply Inv_recorded|].
    assert (Hs : forall l x, stop_event (fold_left jog l x) = stop_event x).
    { induction l as [|m l IH]; simpl; intros x; [reflexivity|].
      rewrite IH. unfold jog. now destruct (Dict.get _ _). }
    unfold recorded, jog_all. destruct (is_recording _); simpl; apply Hs.
  - destruct (in_dec string_dec command CONTROL_COMMANDS) as [Hc|Hc].
    + destruct (control_cases _ Hc) as [->|[->|[->|[->| ->]]]].
      * rewrite process_command_r. eexists. split; [reflexivity|].
        destruct (is_recording s); split; auto with arm_inv.
      * rewrite process_command_p. eexists. split; [reflexivity|].
        destruct (is_recording s); split; auto with arm_inv.
        now apply Inv_spawned.
      * rewrite process_command_o. eexists. split; [reflexivity|].
        destruct (is_recording s); split; auto with arm_inv.
      * rewrite process_command_h. eexists. split; [reflexivity|].
        split; [now apply Inv_spawned | reflexivity].
      * rewrite process_command_help. eexists. split; [reflexivity|].
        split; auto with arm_inv.
    + exists s. split; [now apply process_command_other | now split].
Qed.

(** ** Playback *)

Lemma servo_write_eq name angle s :
  Dict.mem name (servos s) = true ->
  servo_write name angle s = Ok tt (set_hw (hw s ++ [(name, angle)]) s).
Proof.
  unfold servo_write, bind, gets, getitem, Dict.mem.
  destruct (Dict.get name (servos s)); [reflexivity | discriminate].
Qed.

Lemma keys_app {V : Type} (a b : Dict.t V) :
  Dict.keys (a ++ b) = Dict.keys a ++ Dict.keys b.
Proof. apply map_app. Qed.

Lemma apply_snapshot_prefix its :
  forall pre old s,
    current_angles s = pre ++ old ->
    Dict.keys old = Dict.keys its ->
    NoDup (Dict.keys pre ++ Dict.keys its) ->
    (forall k, In k (Dict.keys its) -> Dict.mem k (servos s) = true) ->
    apply_snapshot its s =
    Ok tt (mkState (servos s) (pre ++ its) (is_recording s) (recorded_path s)
                   (stop_event s) (hw s ++ its) (console s) (threads s)).
Proof.
  induction its as [|[k v] its IH]; intros pre old s Hc Hk Hnd Hsv.
  - destruct old; [|discriminate Hk]. simpl. unfold ret.
    rewrite <- Hc, app_nil_r. now destruct s.
  - destruct old as [|[k' w] old]; [discriminate Hk|].
    simpl in Hk. injection Hk as -> Hk.
    simpl in Hnd. pose proof (NoDup_remove_2 _ _ _ Hnd) as Hnotin.
    assert (Hpre : ~ In k (Dict.keys pre)) by (rewrite in_app_iff in Hnotin; tauto).
    simpl. rewrite (bind_ok _ _ _ _ _ (servo_write_eq k v s (Hsv k (or_introl eq_refl)))).
    unfold bind at 1, modify at 1.
    rewrite (IH (pre ++ [(k, v)]) old).
    + simpl. rewrite <- !app_assoc. reflexivity.
    + simpl. rewrite Hc, DictFacts.set_app_notin by assumption.
      simpl. rewrite String.eqb_refl, <- app_assoc. reflexivity.
    + assumption.
    + rewrite keys_app, <- app_assoc. exact Hnd.
    + intros k0 Hk0. apply Hsv. now right.
Qed.

Lemma apply_snapshot_eq snapshot s :
  Inv s -> angles_ok snapshot ->
  apply_snapshot (Dict.items snapshot) s = Ok tt (applied snapshot s).
Proof.
  intros HI [Hk _].
  apply (apply_snapshot_prefix snapshot [] (current_angles s) s).
  - reflexivity.
  - rewrite Hk. apply HI.
  - simpl. rewrite Hk. apply NoDup_JOINTS.
  - intros k Hin. apply Inv_mem; [assumption | now rewrite <- Hk].
Qed.

Lemma Inv_applied snapshot s : Inv s -> angles_ok snapshot -> Inv (applied snapshot s).
Proof. intros HI Hs. apply (Inv_with s); try apply HI; [reflexivity | exact Hs]. Qed.

Lemma playback_end_eq s :
  Dict.keys (current_angles s) = JOINTS ->
  exists o,
    playback_end s =
    Ok Finished (printed o (printed (Line "--- Playback Finished ---") s)).
Proof.
  intros Hk. unfold playback_end.
  destruct (print_status_eq (printed (Line "--- Playback Finished ---") s) Hk)
    as [cells E].
  eexists. unfold bind at 1. unfold print at 1, modify at 1.
  unfold bind. unfold printed in E at 1. rewrite E. reflexivity.
Qed.

Lemma playback_for_next i snapshot s :
  Inv s -> nth_error (recorded_path s) i = Some snapshot -> stop_event s = false ->
  playback_for i s = Ok (PlaybackSleeping (S i)) (applied snapshot s).
Proof.
  intros HI Hn Hs. unfold playback_for, bind at 1, gets at 1. rewrite Hn.
  unfold bind at 1, gets at 1. rewrite Hs.
  assert (Hok : angles_ok snapshot).
  { apply nth_error_In in Hn. pose proof (inv_path _ HI) as Hp.
    rewrite Forall_forall in Hp. auto. }
  now rewrite (bind_ok _ _ _ _ _ (apply_snapshot_eq snapshot s HI Hok)).
Qed.

Lemma playback_for_stop i snapshot s :
  Inv s -> nth_error (recorded_path s) i = Some snapshot -> stop_event s = true ->
  exists o,
    playback_for i s =
    Ok Finished (printed o (printed (Line "--- Playback Finished ---")
                              (printed (Line "Playback interrupted.") s))).
Proof.
  intros HI Hn Hs. unfold playback_for, bind at 1, gets at 1. rewrite Hn.
  unfold bind at 1, gets at 1. rewrite Hs.
  unfold bind at 1, print at 1, modify at 1.
  apply (playback_end_eq (printed (Line "Playback interrupted.") s)).
  apply HI.
Qed.

Lemma playback_for_done i s :
  Inv s -> nth_error (recorded_path s) i = None ->
  exists o,
    playback_for i s =
    Ok Finished (printed o (printed (Line "--- Playback Finished ---") s)).
Proof.
  intros HI Hn. unfold playback_for, bind at 1, gets at 1. rewrite Hn.
  apply playback_end_eq, HI.
Qed.

Lemma playback_path_empty s :
  recorded_path s = [] ->
  playback_path s = Ok Finished (printed (Line "Nothing recorded to play back.") s).
Proof. intros E. unfold playback_path, bind at 1, gets at 1. now rewrite E. Qed.

Lemma playback_path_start s :
  recorded_path s <> [] ->
  playback_path s = playback_for 0 (printed (Line "--- Starting Playback ---") s).
Proof.
  intros E. unfold playback_path, bind at 1, gets at 1.
  destruct (recorded_path s); [congruence | reflexivity].
Qed.

Lemma same_control_refl s : same_control s s.
Proof. repeat split. Qed.

Lemma same_control_trans s1 s2 s3 :
  same_control s1 s2 -> same_control s2 s3 -> same_control s1 s3.
Proof. unfold same_control. intuition congruence. Qed.

Ltac printed_segment :=
  split; [auto 6 using Inv_printed | split; [exact I | now repeat split]].

Lemma playback_for_inv i s :
  Inv s ->
  exists th' s', playback_for i s = Ok th' s' /\ Inv s' /\ thread_ok th'
                 /\ same_control s s'.
Proof.
  intros HI. destruct (nth_error (recorded_path s) i) as [snapshot|] eqn:Hn.
  - destruct (stop_event s) eqn:Hs.
    + destruct (playback_for_stop i snapshot s HI Hn Hs) as [o E].
      do 2 eexists. split; [exact E|]. printed_segment.
    + do 2 eexists. split; [apply playback_for_next; eassumption|].
      split; [|split; [exact I | now repeat split]].
      apply Inv_applied; [assumption|].
      apply nth_error_In in Hn. pose proof (inv_path _ HI) as Hp.
      rewrite Forall_forall in Hp. auto.
  - destruct (playback_for_done i s HI Hn) as [o E].
    do 2 eexists. split; [exact E|]. printed_segment.
Qed.

Lemma playback_path_inv s :
  Inv s ->
  exists th' s', playback_path s = Ok th' s' /\ Inv s' /\ thread_ok th'
                 /\ same_control s s'.
Proof.
  intros HI. destruct (recorded_path s) eqn:E.
  - do 2 eexists. split; [now apply playback_path_empty|]. printed_segment.
  - rewrite playback_path_start by congruence.
    destruct (playback_for_inv 0 (printed (Line "--- Starting Playback ---") s))
      as (th' & s' & E' & HI' & Ht & Hc); [now apply Inv_printed|].
    exists th', s'. split; [exact E'|]. split; [exact HI'|]. split; [exact Ht|].
    exact Hc.
Qed.

(** ** Homing *)

Lemma neutral_get name :
  In name JOINTS ->
  Dict.get name NEUTRAL_ANGLES = Some (neutral name) /\ in_range (neutral name).
Proof.
  unfold JOINTS, neutral, in_range. simpl.
  intros H. repeat (destruct H as [<-|H]; [simpl; split; [reflexivity | lia]|]).
  contradiction.
Qed.

Lemma home_end_eq s :
  Dict.keys (current_angles s) = JOINTS ->
  exists s', home_end s = Ok Finished s' /\ same_control s s'
             /\ current_angles s' = current_angles s /\ hw s' = hw s.
Proof.
  intros Hk. unfold home_end, bind at 1, gets at 1.
  destruct (stop_event s); simpl.
  - destruct (print_status_eq s Hk) as [cells E].
    eexists. unfold bind, ret. rewrite E. repeat split.
  - destruct (print_status_eq (printed (Line "Arm has returned to neutral position.") s) Hk)
      as [cells E].
    eexists. unfold bind, print, modify. unfold printed in E at 1. rewrite E.
    repeat split.
Qed.

Lemma any_off_neutral_prefix post_ :
  forall pre s,
    NoDup (Dict.keys pre ++ Dict.keys post_) ->
    (forall k, In k (Dict.keys post_) -> In k JOINTS) ->
    any_off_neutral (Dict.keys post_) (pre ++ post_) s = Ok (off_neutral post_) s.
Proof.
  induction post_ as [|[k v] rest IH]; intros pre s Hnd Hj; [reflexivity|].
  simpl in Hnd. pose proof (NoDup_remove_2 _ _ _ Hnd) as Hnotin.
  assert (Hpre : ~ In k (Dict.keys pre)) by (rewrite in_app_iff in Hnotin; tauto).
  destruct (neutral_get k (Hj k (or_introl eq_refl))) as [Hn _].
  cbn [any_off_neutral Dict.keys map fst]. unfold bind at 1, getitem at 1.
  rewrite DictFacts.get_app_notin by assumption.
  cbn [Dict.get]. rewrite String.eqb_refl. unfold ret at 1.
  unfold bind at 1, getitem at 1. rewrite Hn. unfold ret at 1.
  cbn [off_neutral existsb fst snd].
  destruct (v =? neutral k); cbn [negb orb]; [|reflexivity].
  specialize (IH (pre ++ [(k, v)]) s).
  rewrite <- app_assoc in IH. apply IH.
  - rewrite keys_app, <- app_assoc. exact Hnd.
  - intros k0 Hk0. apply Hj. now right.
Qed.

Lemma any_off_neutral_eq temp_angles s :
  Dict.keys temp_angles = JOINTS ->
  any_off_neutral (Dict.keys SERVO_PINS) temp_angles s = Ok (off_neutral temp_angles) s.
Proof.
  intros Hk. change (Dict.keys SERVO_PINS) with JOINTS. rewrite <- Hk.
  apply (any_off_neutral_prefix temp_angles []).
  - simpl. rewrite Hk. apply NoDup_JOINTS.
  - intros k. now rewrite Hk.
Qed.

Lemma toward_in_range target current :
  in_range target -> in_range current -> in_range (toward target current).
Proof.
  unfold in_range, toward. intros Ht Hc.
  destruct (Z.eqb_spec current target); [assumption|].
  destruct (Z.ltb_spec current target); lia.
Qed.

Lemma keys_home_tick d : Dict.keys (home_tick d) = Dict.keys d.
Proof.
  unfold home_tick, Dict.keys. rewrite map_map. reflexivity.
Qed.

Lemma home_for_prefix post_ :
  forall pre s,
    NoDup (Dict.keys pre ++ Dict.keys post_) ->
    (forall k, In k (Dict.keys post_) -> In k JOINTS) ->
    Inv s ->
    exists s',
      home_for (Dict.keys post_) (pre ++ post_) s = Ok (pre ++ home_tick post_) s'
      /\ Inv s' /\ same_control s s' /\ console s' = console s
      /\ (current_angles s = pre ++ post_ ->
          Forall in_range (Dict.values post_) ->
          current_angles s' = pre ++ home_tick post_).
Proof.
  induction post_ as [|[k v] rest IH]; intros pre s Hnd Hj HI.
  - exists s. simpl. rewrite app_nil_r.
    split; [reflexivity|]. split; [exact HI|].
    split; [apply same_control_refl|]. split; [reflexivity|]. now intros ->.
  - simpl in Hnd. pose proof (NoDup_remove_2 _ _ _ Hnd) as Hnotin.
    assert (Hpre : ~ In k (Dict.keys pre)) by (rewrite in_app_iff in Hnotin; tauto).
    assert (Hk : In k JOINTS) by (apply Hj; now left).
    destruct (neutral_get k Hk) as [Hn Hnr].
    assert (Hnd' : NoDup (Dict.keys (pre ++ [(k, toward (neutral k) v)]) ++ Dict.keys rest))
      by (rewrite keys_app, <- app_assoc; exact Hnd).
    assert (Hj' : forall k0, In k0 (Dict.keys rest) -> In k0 JOINTS)
      by (intros k0 Hk0; apply Hj; now right).
    cbn [home_for Dict.keys map fst]. unfold bind at 1, getitem at 1.
    rewrite DictFacts.get_app_notin by assumption.
    cbn [Dict.get]. rewrite String.eqb_refl. unfold ret at 1.
    unfold bind at 1, getitem at 1. rewrite Hn. unfold ret at 1.
    cbn [home_tick map].
    destruct (Z.eqb_spec v (neutral k)) as [Hv|Hv]; cbn [negb].
    + replace (toward_entry (k, v)) with (k, v)
        by (unfold toward_entry, toward; cbn [fst snd];
            now destruct (Z.eqb_spec v (neutral k))).
      destruct (IH (pre ++ [(k, v)]) s) as (s' & E & HI' & Hc & Ho & Hsync);
        [rewrite keys_app, <- app_assoc; exact Hnd | exact Hj' | exact HI |].
      exists s'. rewrite <- !app_assoc in E, Hsync.
      split; [exact E|]. split; [exact HI'|]. split; [exact Hc|].
      split; [exact Ho|]. intros Hcur Hr. inversion Hr; subst.
      apply Hsync; assumption.
    + set (new_angle := if v <? neutral k then v + 1 else v - 1).
      replace (toward_entry (k, v)) with (k, new_angle)
        by (unfold toward_entry, toward; cbn [fst snd];
            now destruct (Z.eqb_spec v (neutral k))).
      rewrite (bind_ok _ _ _ _ _
                 (move_servo_eq k new_angle s (Inv_mem k s HI Hk))).
      rewrite DictFacts.set_app_notin by assumption.
      cbn [Dict.set]. rewrite String.eqb_refl.
      destruct (IH (pre ++ [(k, new_angle)]) (moved k (clamp new_angle) s))
        as (s' & E & HI' & Hc & Ho & Hsync);
        [ rewrite keys_app, <- app_assoc; exact Hnd | exact Hj'
        | apply Inv_moved; auto using clamp_in_range |].
      exists s'. rewrite <- !app_assoc in E, Hsync.
      split; [exact E|]. split; [exact HI'|].
      split; [exact (same_control_trans _ _ _ (same_control_refl s) Hc)|].
      split; [exact Ho|]. intros Hcur Hr. inversion Hr as [|? ? Hvr Hrr]; subst.
      apply Hsync; [|assumption].
      cbn [moved current_angles].
      rewrite Hcur, DictFacts.set_app_notin by assumption.
      cbn [Dict.set]. rewrite String.eqb_refl.
      rewrite clamp_id; [reflexivity|].
      pose proof (toward_in_range (neutral k) v Hnr Hvr) as Ht.
      unfold toward in Ht. destruct (Z.eqb_spec v (neutral k)); [contradiction|].
      exact Ht.
Qed.

Lemma home_for_eq temp_angles s :
  Dict.keys temp_angles = JOINTS -> Inv s ->
  exists s',
    home_for (Dict.keys SERVO_PINS) temp_angles s = Ok (home_tick temp_angles) s'
    /\ Inv s' /\ same_control s s' /\ console s' = console s
    /\ (current_angles s = temp_angles ->
        current_angles s' = home_tick temp_angles).
Proof.
  intros Hk HI. change (Dict.keys SERVO_PINS) with JOINTS. rewrite <- Hk.
  destruct (home_for_prefix temp_angles [] s) as (s' & E & HI' & Hc & Ho & Hsync).
  - simpl. rewrite Hk. apply NoDup_JOINTS.
  - intros k. now rewrite Hk.
  - exact HI.
  - exists s'. repeat (split; [assumption|]).
    intros Hcur. apply Hsync; [exact Hcur|]. rewrite <- Hcur. apply HI.
Qed.

Lemma home_while_done temp_angles s :
  Dict.keys temp_angles = JOINTS -> off_neutral temp_angles = false ->
  home_while temp_angles s = home_end s.
Proof.
  intros Hk Hoff. unfold home_while.
  rewrite (bind_ok _ _ _ _ _ (any_off_neutral_eq temp_angles s Hk)).
  now rewrite Hoff.
Qed.

Lemma home_while_stop temp_angles s :
  Dict.keys temp_angles = JOINTS -> off_neutral temp_angles = true ->
  stop_event s = true ->
  home_while temp_angles s = home_end (printed (Line "Return to neutral interrupted.") s).
Proof.
  intros Hk Hoff Hs. unfold home_while.
  rewrite (bind_ok _ _ _ _ _ (any_off_neutral_eq temp_angles s Hk)).
  rewrite Hoff. unfold bind at 1, gets at 1. now rewrite Hs.
Qed.

Lemma home_while_tick temp_angles s :
  Dict.keys temp_angles = JOINTS -> off_neutral temp_angles = true ->
  stop_event s = false -> Inv s ->
  exists s',
    home_while temp_angles s = Ok (HomeSleeping (home_tick temp_angles)) s'
    /\ Inv s' /\ same_control s s' /\ console s' = console s
    /\ (current_angles s = temp_angles ->
        current_angles s' = home_tick temp_angles).
Proof.
  intros Hk Hoff Hs HI. unfold home_while.
  rewrite (bind_ok _ _ _ _ _ (any_off_neutral_eq temp_angles s Hk)).
  rewrite Hoff. unfold bind at 1, gets at 1. rewrite Hs.
  destruct (home_for_eq temp_angles s Hk HI) as (s' & E & Hrest).
  exists s'. rewrite (bind_ok _ _ _ _ _ E). split; [reflexivity | exact Hrest].
Qed.

Lemma Inv_same_control s s' :
  Inv s -> same_control s s' -> angles_ok (current_angles s') -> Inv s'.
Proof.
  intros HI (E1 & _ & E3 & _ & E5) Ha.
  apply (Inv_with s); try assumption; [rewrite E3 | rewrite E5]; apply HI.
Qed.

Lemma home_end_inv s :
  Inv s ->
  exists th' s', home_end s = Ok th' s' /\ Inv s' /\ thread_ok th'
                 /\ same_control s s'.
Proof.
  intros HI. destruct (home_end_eq s) as (s' & E & Hc & Ha & _); [apply HI|].
  exists Finished, s'. split; [exact E|]. split; [|split; [exact I | exact Hc]].
  apply (Inv_same_control s); [assumption.. |]. rewrite Ha. apply HI.
Qed.

Lemma home_while_inv temp_angles s :
  Inv s -> Dict.keys temp_angles = JOINTS ->
  exists th' s', home_while temp_angles s = Ok th' s' /\ Inv s' /\ thread_ok th'
                 /\ same_control s s'.
Proof.
  intros HI Hk. destruct (off_neutral temp_angles) eqn:Hoff.
  - destruct (stop_event s) eqn:Hs.
    + rewrite home_while_stop by assumption.
      destruct (home_end_inv (printed (Line "Return to neutral interrupted.") s))
        as (th' & s' & E & HI' & Ht & Hc); [now apply Inv_printed|].
      exists th', s'. split; [exact E|]. split; [exact HI'|]. split; [exact Ht|].
      exact Hc.
    + destruct (home_while_tick temp_angles s Hk Hoff Hs HI)
        as (s' & E & HI' & Hc & _).
      do 2 eexists. split; [exact E|]. split; [exact HI'|]. split; [|exact Hc].
      simpl. now rewrite keys_home_tick.
  - rewrite home_while_done by assumption. now apply home_end_inv.
Qed.

Lemma return_to_neutral_slowly_refused s :
  is_recording s = true ->
  return_to_neutral_slowly s =
  Ok Finished (printed (Line "Cannot return to home while recording.") s).
Proof.
  intros Hr. unfold return_to_neutral_slowly, bind at 1, gets at 1. now rewrite Hr.
Qed.

Lemma return_to_neutral_slowly_start s :
  is_recording s = false ->
  return_to_neutral_slowly s =
  home_while (current_angles s)
             (printed (Line "Returning to neutral position slowly...") s).
Proof.
  intros Hr. unfold return_to_neutral_slowly, bind at 1, gets at 1. now rewrite Hr.
Qed.

Lemma return_to_neutral_slowly_inv s :
  Inv s ->
  exists th' s', return_to_neutral_slowly s = Ok th' s' /\ Inv s' /\ thread_ok th'
                 /\ same_control s s'.
Proof.
  intros HI. destruct (is_recording s) eqn:Hr.
  - rewrite return_to_neutral_slowly_refused by assumption.
    do 2 eexists. split; [reflexivity|]. printed_segment.
  - rewrite return_to_neutral_slowly_start by assumption.
    destruct (home_while_inv (current_angles s)
                (printed (Line "Returning to neutral position slowly...") s))
      as (th' & s' & E & HI' & Ht & Hc); [now apply Inv_printed | apply HI |].
    exists th', s'. split; [exact E|]. split; [exact HI'|]. split; [exact Ht|].
    exact Hc.
Qed.

(** ** The thread pool *)

Lemma nth_error_replace_nth {A : Type} n (x : A) l :
  (n < List.length l)%nat -> nth_error (replace_nth n x l) n = Some x.
Proof.
  revert n. induction l as [|y l IH]; intros [|n]; simpl; intros H;
    try lia; [reflexivity | apply IH; lia].
Qed.

Lemma Forall_replace_nth {A : Type} (P : A -> Prop) n x l :
  P x -> Forall P l -> Forall P (replace_nth n x l).
Proof.
  intros Hx. revert n. induction l as [|y l IH]; intros [|n] Hl; simpl;
    inversion Hl; subst; constructor; auto.
Qed.

Lemma nth_error_snoc {A : Type} (l : list A) x :
  nth_error (l ++ [x]) (List.length l) = Some x.
Proof. induction l; simpl; auto. Qed.

Lemma resume_inv th s :
  Inv s -> thread_ok th ->
  exists th' s', resume th s = Ok th' s' /\ Inv s' /\ thread_ok th'
                 /\ same_control s s'.
Proof.
  intros HI Ht. destruct th; simpl in *.
  - now apply playback_path_inv.
  - now apply playback_for_inv.
  - now apply return_to_neutral_slowly_inv.
  - now apply home_while_inv.
  - exists Finished, s. repeat split; auto; apply HI.
  - contradiction.
Qed.

(** The state that resuming thread [tid] for one segment leads to. *)
Lemma tick_eq tid th th' s s' :
  nth_error (threads s) tid = Some th ->
  resume th s = Ok th' s' ->
  tick tid s = Ok tt (set_threads (replace_nth tid th' (threads s')) s').
Proof. intros Hn E. unfold tick. now rewrite Hn, E. Qed.

Lemma tick_inv tid s :
  Inv s ->
  exists s', tick tid s = Ok tt s' /\ Inv s' /\ stop_event s' = stop_event s.
Proof.
  intros HI. destruct (nth_error (threads s) tid) as [th|] eqn:Hn.
  - assert (Ht : thread_ok th).
    { pose proof (inv_threads _ HI) as Hf. rewrite Forall_forall in Hf.
      eapply Hf, nth_error_In, Hn. }
    destruct (resume_inv th s HI Ht) as (th' & s' & E & HI' & Ht' & Hc).
    eexists. split; [exact (tick_eq _ _ _ _ _ Hn E)|].
    split; [|apply Hc].
    apply (Inv_with s'); try apply HI'; [reflexivity|].
    simpl. apply Forall_replace_nth; [assumption | apply HI'].
  - exists s. unfold tick. rewrite Hn. now split.
Qed.

Lemma step_key_eq command s s1 :
  stop_event s = false ->
  process_command command s = Ok PyNone s1 ->
  Dict.keys (current_angles s1) = JOINTS ->
  exists o, step (Key command) s = Ok tt (printed o s1).
Proof.
  intros Hs E Hk. destruct (print_status_eq s1 Hk) as [cells Ep].
  eexists. unfold step, bind at 1, gets at 1. rewrite Hs.
  rewrite (bind_ok _ _ _ _ _ E), (bind_ok _ _ _ _ _ Ep). reflexivity.
Qed.

Lemma step_inv ev s :
  Inv s -> exists s', step ev s = Ok tt s' /\ Inv s'.
Proof.
  intros HI. destruct ev as [command| |tid].
  - destruct (stop_event s) eqn:Hs.
    + exists s. unfold step, bind, gets. rewrite Hs. now split.
    + destruct (process_command_inv command s HI) as (s1 & E & HI1 & _).
      destruct (step_key_eq command s s1 Hs E) as [o Eo]; [apply HI1|].
      eexists. split; [exact Eo | now apply Inv_printed].
  - unfold step, bind, gets. destruct (stop_event s).
    + exists s. now split.
    + eexists. split; [reflexivity|]. now apply Inv_stop, Inv_printed.
  - destruct (tick_inv tid s HI) as (s' & E & HI' & _). eauto.
Qed.

Lemma run_app evs1 evs2 s :
  run (evs1 ++ evs2) s = (run evs1 ;; run evs2) s.
Proof.
  revert s. induction evs1 as [|ev evs1 IH]; intros s; simpl.
  - reflexivity.
  - unfold bind. destruct (step ev s); [|reflexivity].
    rewrite IH. reflexivity.
Qed.

Lemma run_inv evs s :
  Inv s -> exists s', run evs s = Ok tt s' /\ Inv s'.
Proof.
  revert s. induction evs as [|ev evs IH]; intros s HI.
  - exists s. now split.
  - destruct (step_inv ev s HI) as (s1 & E & HI1).
    destruct (IH s1 HI1) as (s' & E' & HI').
    exists s'. split; [|assumption]. simpl. now rewrite (bind_ok _ _ _ _ _ E).
Qed.

(** * The specification's properties *)

(** C1, as stated, fails on the code at its last clause: [move_servo] has
    no return statement, so the call evaluates to [None] and not to the
    clamped angle (requested 200 on the shoulder: 180 is stored and
    written, [None] is returned). *)
Lemma move_servo_does_not_return_the_angle :
  ~ exists s', move_servo "shoulder" 200 boot = Ok (PyInt (clamp 200)) s'.
Proof.
  intros [s' E].
  rewrite move_servo_eq in E by reflexivity.
  discriminate E.
Qed.

(** C1 (amended): for every configured joint and every requested angle,
    negative or above 180 included, [move_servo] clamps the request into
    [0, 180], stores the clamped value for that joint only, issues one
    servo write of the clamped value, and returns [None]; the stored value
    is within the range. *)
Theorem move_servo_clamps_stores_writes (name : string) (angle : Z) (s : State) :
  Dict.mem name (servos s) = true ->
  exists s',
    move_servo name angle s = Ok PyNone s'
    /\ Dict.get name (current_angles s') = Some (clamp angle)
    /\ 0 <= clamp angle <= 180
    /\ clamp angle = Z.max 0 (Z.min 180 angle)
    /\ (forall other, other <> name ->
          Dict.get other (current_angles s') = Dict.get other (current_angles s))
    /\ hw s' = hw s ++ [(name, clamp angle)]
    /\ recorded_path s' = recorded_path s
    /\ console s' = console s.
Proof.
  intros Hm. exists (moved name (clamp angle) s).
  split; [now apply move_servo_eq|].
  split; [apply DictFacts.get_set_eq|].
  split; [apply clamp_in_range|].
  split; [reflexivity|].
  split; [|now repeat split].
  intros other Hne. simpl. apply DictFacts.get_set_ne. congruence.
Qed.

Lemma move_servo_clamps_stores_writes_witness :
  Dict.mem "elbow" (servos boot) = true /\
  exists s',
    move_servo "elbow" (-30) boot = Ok PyNone s'
    /\ Dict.get "elbow" (current_angles s') = Some (clamp (-30))
    /\ 0 <= clamp (-30) <= 180
    /\ clamp (-30) = Z.max 0 (Z.min 180 (-30))
    /\ (forall other, other <> "elbow" ->
          Dict.get other (current_angles s') = Dict.get other (current_angles boot))
    /\ hw s' = hw boot ++ [("elbow", clamp (-30))]
    /\ recorded_path s' = recorded_path boot
    /\ console s' = console boot.
Proof.
  split; [reflexivity|].
  apply (move_servo_clamps_stores_writes "elbow" (-30) boot). reflexivity.
Defined.

(** C2: whatever the main loop and the scheduler do after start-up (keys,
    escape, playback and homing segments, in any interleaving), the program
    keeps running and every stored angle stays within [0, 180], the range
    of every joint; the playback path included, which stores snapshot
    angles without clamping them. *)
Theorem stored_angles_always_in_range (evs : list Event) :
  exists s,
    run evs boot = Ok tt s
    /\ Dict.keys (current_angles s) = JOINTS
    /\ Forall in_range (Dict.values (current_angles s)).
Proof.
  destruct (run_inv evs boot Inv_boot) as (s & E & HI).
  exists s. split; [exact E|]. apply HI.
Qed.

(** C7: while a recording session is active, begin-playback is refused:
    the command returns normally after printing the refusal, starts no
    thread and writes no servo; the trajectory and the stored angles are
    unchanged and the session stays active. *)
Theorem playback_refused_while_recording (s : State) :
  is_recording s = true ->
  exists s',
    process_command "p" s = Ok PyNone s'
    /\ console s' = console s ++ [Line "Stop recording ('o') before playing back."]
    /\ recorded_path s' = recorded_path s
    /\ current_angles s' = current_angles s
    /\ threads s' = threads s
    /\ hw s' = hw s
    /\ is_recording s' = true.
Proof.
  intros Hr. rewrite process_command_p, Hr.
  eexists. split; [reflexivity|]. now repeat split.
Qed.

Lemma playback_refused_while_recording_witness :
  is_recording (started_recording boot) = true /\
  exists s',
    process_command "p" (started_recording boot) = Ok PyNone s'
    /\ console s' = console (started_recording boot)
                    ++ [Line "Stop recording ('o') before playing back."]
    /\ recorded_path s' = recorded_path (started_recording boot)
    /\ current_angles s' = current_angles (started_recording boot)
    /\ threads s' = threads (started_recording boot)
    /\ hw s' = hw (started_recording boot)
    /\ is_recording s' = true.
Proof.
  split; [reflexivity|].
  apply (playback_refused_while_recording (started_recording boot)). reflexivity.
Defined.

(** C9: begin-record twice in a row leaves the trajectory as one
    begin-record leaves it: the second command finds the session active,
    prints the refusal and neither clears nor otherwise touches the
    trajectory (which the first one left as it was when a session was
    already active, and emptied otherwise). *)
Theorem second_start_keeps_trajectory (s : State) :
  exists s1 s2,
    process_command "r" s = Ok PyNone s1
    /\ process_command "r" s1 = Ok PyNone s2
    /\ recorded_path s1 = (if is_recording s then recorded_path s else [])
    /\ recorded_path s2 = recorded_path s1
    /\ is_recording s1 = true
    /\ is_recording s2 = true
    /\ console s2 = console s1 ++ [Line "Already recording."]
    /\ current_angles s2 = current_angles s1.
Proof.
  rewrite process_command_r.
  destruct (is_recording s) eqn:Hr.
  - do 2 eexists. split; [reflexivity|]. rewrite process_command_r. simpl.
    rewrite Hr. now repeat split.
  - do 2 eexists. split; [reflexivity|]. rewrite process_command_r. simpl.
    now repeat split.
Qed.

Lemma jog_eq name delta a s :
  Dict.get name (current_angles s) = Some a ->
  jog s (name, delta) = moved name (clamp (a + delta)) s.
Proof. intros E. unfold jog. simpl. now rewrite E. Qed.

Lemma recorded_path_recorded s :
  recorded_path (recorded s) =
  recorded_path s ++ (if is_recording s then [current_angles s] else []).
Proof.
  unfold recorded. destruct (is_recording s); simpl;
    [reflexivity | now rewrite app_nil_r].
Qed.

Lemma current_angles_recorded s : current_angles (recorded s) = current_angles s.
Proof. unfold recorded. now destruct (is_recording s). Qed.

Lemma hw_recorded s : hw (recorded s) = hw s.
Proof. unfold recorded. now destruct (is_recording s). Qed.

(** The state after a pair of moves on two different joints. *)
Lemma jog_pair n1 d1 n2 d2 a b s :
  n1 <> n2 ->
  Dict.get n1 (current_angles s) = Some a ->
  Dict.get n2 (current_angles s) = Some b ->
  jog_all [(n1, d1); (n2, d2)] s
  = moved n2 (clamp (b + d2)) (moved n1 (clamp (a + d1)) s).
Proof.
  intros Hne Ha Hb. unfold jog_all. simpl.
  rewrite (jog_eq n1 d1 a s Ha).
  apply jog_eq. simpl. rewrite DictFacts.get_set_ne by assumption. exact Hb.
Qed.

Lemma moved_pair_facts n1 n2 x y s :
  n1 <> n2 ->
  let s' := recorded (moved n2 y (moved n1 x s)) in
  Dict.get n1 (current_angles s') = Some x
  /\ Dict.get n2 (current_angles s') = Some y
  /\ hw s' = hw s ++ [(n1, x); (n2, y)]
  /\ recorded_path s' =
     recorded_path s ++ (if is_recording s then [current_angles s'] else []).
Proof.
  intros Hne s'. subst s'.
  rewrite current_angles_recorded, hw_recorded, recorded_path_recorded. simpl.
  split; [|split; [|split]].
  - rewrite DictFacts.get_set_ne by congruence. apply DictFacts.get_set_eq.
  - apply DictFacts.get_set_eq.
  - now rewrite <- app_assoc.
  - reflexivity.
Qed.

(** C8: with the two base joints at [a] and [b], one "left" command sets
    them to [clamp (a + INCREMENT)] and [clamp (b - INCREMENT)] and one
    "right" command to [clamp (a - INCREMENT)] and [clamp (b + INCREMENT)]:
    two servo writes, base_1 first, and only then, when a session is
    active, a single snapshot that holds both new angles. *)
Theorem differential_base_drive (s : State) (a b : Z) :
  Inv s ->
  Dict.get "base_1" (current_angles s) = Some a ->
  Dict.get "base_2" (current_angles s) = Some b ->
  exists sl sr,
    process_command "left" s = Ok PyNone sl
    /\ Dict.get "base_1" (current_angles sl) = Some (clamp (a + INCREMENT))
    /\ Dict.get "base_2" (current_angles sl) = Some (clamp (b - INCREMENT))
    /\ hw sl = hw s ++ [("base_1", clamp (a + INCREMENT));
                        ("base_2", clamp (b - INCREMENT))]
    /\ recorded_path sl =
       recorded_path s ++ (if is_recording s then [current_angles sl] else [])
    /\ process_command "right" s = Ok PyNone sr
    /\ Dict.get "base_1" (current_angles sr) = Some (clamp (a - INCREMENT))
    /\ Dict.get "base_2" (current_angles sr) = Some (clamp (b + INCREMENT))
    /\ hw sr = hw s ++ [("base_1", clamp (a - INCREMENT));
                        ("base_2", clamp (b + INCREMENT))]
    /\ recorded_path sr =
       recorded_path s ++ (if is_recording s then [current_angles sr] else []).
Proof.
  intros HI Ha Hb.
  assert (Hne : "base_1" <> "base_2") by discriminate.
  do 2 eexists.
  split; [apply (process_command_move "left" _ s eq_refl HI)|].
  rewrite (jog_pair _ _ _ _ a b s Hne Ha Hb).
  destruct (moved_pair_facts "base_1" "base_2" (clamp (a + INCREMENT))
              (clamp (b - INCREMENT)) s Hne) as (L1 & L2 & L3 & L4).
  split; [exact L1|]. split; [exact L2|]. split; [exact L3|]. split; [exact L4|].
  split; [apply (process_command_move "right" _ s eq_refl HI)|].
  rewrite (jog_pair _ _ _ _ a b s Hne Ha Hb).
  destruct (moved_pair_facts "base_1" "base_2" (clamp (a - INCREMENT))
              (clamp (b + INCREMENT)) s Hne) as (R1 & R2 & R3 & R4).
  split; [exact R1|]. split; [exact R2|]. split; [exact R3|]. exact R4.
Qed.

Lemma differential_base_drive_witness :
  (Inv (started_recording boot)
   /\ Dict.get "base_1" (current_angles (started_recording boot)) = Some 180
   /\ Dict.get "base_2" (current_angles (started_recording boot)) = Some 0)
  /\ exists sl sr,
    process_command "left" (started_recording boot) = Ok PyNone sl
    /\ Dict.get "base_1" (current_angles sl) = Some (clamp (180 + INCREMENT))
    /\ Dict.get "base_2" (current_angles sl) = Some (clamp (0 - INCREMENT))
    /\ hw sl = hw (started_recording boot)
               ++ [("base_1", clamp (180 + INCREMENT));
                   ("base_2", clamp (0 - INCREMENT))]
    /\ recorded_path sl =
       recorded_path (started_recording boot)
       ++ (if is_recording (started_recording boot) then [current_angles sl] else [])
    /\ process_command "right" (started_recording boot) = Ok PyNone sr
    /\ Dict.get "base_1" (current_angles sr) = Some (clamp (180 - INCREMENT))
    /\ Dict.get "base_2" (current_angles sr) = Some (clamp (0 + INCREMENT))
    /\ hw sr = hw (started_recording boot)
               ++ [("base_1", clamp (180 - INCREMENT));
                   ("base_2", clamp (0 + INCREMENT))]
    /\ recorded_path sr =
       recorded_path (started_recording boot)
       ++ (if is_recording (started_recording boot) then [current_angles sr] else []).
Proof.
  assert (HI : Inv (started_recording boot))
    by exact (Inv_started_recording boot Inv_boot).
  split; [split; [exact HI | split; reflexivity]|].
  exact (differential_base_drive (started_recording boot) 180 0
           HI eq_refl eq_refl).
Defined.

Lemma jog_at_limit name delta a s :
  Dict.get name (current_angles s) = Some a ->
  clamp (a + delta) = a ->
  jog s (name, delta) = set_hw (hw s ++ [(name, a)]) s.
Proof.
  intros Ha Hc. rewrite (jog_eq name delta a s Ha), Hc.
  unfold moved, set_hw. now rewrite (DictFacts.set_same name a _ Ha).
Qed.

Lemma jog_all_at_limit ms :
  forall s,
    Forall (held_at_limit (current_angles s)) ms ->
    current_angles (jog_all ms s) = current_angles s
    /\ recorded_path (jog_all ms s) = recorded_path s
    /\ is_recording (jog_all ms s) = is_recording s.
Proof.
  unfold jog_all.
  induction ms as [|[name delta] ms IH]; intros s Hall; simpl; [now repeat split|].
  inversion Hall as [|? ? (a & Ha & Hc) Hrest]; subst. simpl in Ha, Hc.
  rewrite (jog_at_limit name delta a s Ha Hc).
  apply (IH (set_hw (hw s ++ [(name, a)]) s)). exact Hrest.
Qed.

(** C10: during a recording session, a movement command whose every
    requested angle clamps back to the stored one (the joint is at its
    limit) is executed all the same and appends one snapshot, equal to the
    unchanged stored angles; given twice, it leaves two identical
    consecutive snapshots in the trajectory. *)
Theorem move_at_limit_is_recorded (command : string) (ms : list (string * Z))
        (s : State) :
  Inv s ->
  is_recording s = true ->
  moves_of command = Some ms ->
  Forall (held_at_limit (current_angles s)) ms ->
  exists s1 s2,
    process_command command s = Ok PyNone s1
    /\ current_angles s1 = current_angles s
    /\ recorded_path s1 = recorded_path s ++ [current_angles s]
    /\ process_command command s1 = Ok PyNone s2
    /\ recorded_path s2 = recorded_path s ++ [current_angles s; current_angles s].
Proof.
  intros HI Hr Hm Hall.
  assert (Hj : Forall (fun m => In (fst m) JOINTS) ms)
    by exact (moves_of_joints _ _ Hm).
  destruct (jog_all_at_limit ms s Hall) as (E1 & E2 & E3).
  set (s1 := recorded (jog_all ms s)).
  assert (HI1 : Inv s1) by now apply Inv_recorded, Inv_jog_all.
  assert (Hc1 : current_angles s1 = current_angles s)
    by (unfold s1; now rewrite current_angles_recorded).
  assert (Hp1 : recorded_path s1 = recorded_path s ++ [current_angles s])
    by (unfold s1; now rewrite recorded_path_recorded, E1, E2, E3, Hr).
  assert (Hr1 : is_recording s1 = true).
  { unfold s1, recorded. rewrite E3, Hr. simpl. now rewrite E3. }
  assert (Hall1 : Forall (held_at_limit (current_angles s1)) ms)
    by now rewrite Hc1.
  destruct (jog_all_at_limit ms s1 Hall1) as (F1 & F2 & F3).
  exists s1, (recorded (jog_all ms s1)).
  split; [now apply process_command_move|].
  split; [exact Hc1|]. split; [exact Hp1|].
  split; [now apply process_command_move|].
  rewrite recorded_path_recorded, F1, F2, F3, Hr1, Hp1, Hc1, <- app_assoc.
  reflexivity.
Qed.

Lemma move_at_limit_is_recorded_witness :
  (Inv (started_recording boot)
   /\ is_recording (started_recording boot) = true
   /\ moves_of "down" = Some [("shoulder", INCREMENT)]
   /\ Forall (held_at_limit (current_angles (started_recording boot)))
             [("shoulder", INCREMENT)])
  /\ exists s1 s2,
    process_command "down" (started_recording boot) = Ok PyNone s1
    /\ current_angles s1 = current_angles (started_recording boot)
    /\ recorded_path s1 = recorded_path (started_recording boot)
                          ++ [current_angles (started_recording boot)]
    /\ process_command "down" s1 = Ok PyNone s2
    /\ recorded_path s2 = recorded_path (started_recording boot)
                          ++ [current_angles (started_recording boot);
                              current_angles (started_recording boot)].
Proof.
  assert (HI : Inv (started_recording boot))
    by exact (Inv_started_recording boot Inv_boot).
  assert (Hall : Forall (held_at_limit (current_angles (started_recording boot)))
                        [("shoulder", INCREMENT)]).
  { constructor; [|constructor]. exists 180. split; reflexivity. }
  split; [split; [exact HI | split; [reflexivity | split; [reflexivity | exact Hall]]]|].
  exact (move_at_limit_is_recorded "down" [("shoulder", INCREMENT)]
           (started_recording boot) HI eq_refl eq_refl Hall).
Defined.

(** ** Runs in flight *)

(** C6, as stated, fails on the code: with a playback run in flight (two
    snapshots recorded, the first one replayed), a second begin-playback
    starts a second run, begin-homing starts a homing run, and begin-record
    opens a session and empties the trajectory that is being replayed;
    nothing is refused or reported. *)
Lemma second_run_is_started :
  exists s,
    run [Key "r"; Key "up"; Key "up"; Key "o"; Key "p"; Tick 0] boot = Ok tt s
    /\ threads s = [PlaybackSleeping 1]
    /\ busy s = true
    /\ (exists s', process_command "p" s = Ok PyNone s'
                   /\ threads s' = [PlaybackSleeping 1; PlaybackNew]
                   /\ console s' = console s)
    /\ (exists s', process_command "h" s = Ok PyNone s'
                   /\ threads s' = [PlaybackSleeping 1; HomeNew]
                   /\ console s' = console s)
    /\ (exists s', process_command "r" s = Ok PyNone s'
                   /\ is_recording s' = true
                   /\ recorded_path s' = []
                   /\ recorded_path s <> []).
Proof.
  eexists. split; [vm_compute; reflexivity|].
  split; [reflexivity|]. split; [reflexivity|].
  split; [|split]; eexists; (split; [vm_compute; reflexivity|]);
    repeat split; discriminate.
Qed.

(** C6 (amended): the dispatcher consults the recording flag and nothing
    else.  begin-homing always starts a homing run; begin-playback starts a
    playback run unless a session is active, and is refused with a message
    when one is; begin-record opens a session unless one is active; none of
    the three looks at the runs in flight.  A homing run that starts while
    a session is active prints a refusal and ends without a servo write. *)
Theorem long_runs_are_gated_by_recording_only (s : State) :
  process_command "h" s = Ok PyNone (spawned HomeNew s)
  /\ process_command "p" s =
     Ok PyNone (if is_recording s
                then printed (Line "Stop recording ('o') before playing back.") s
                else spawned PlaybackNew s)
  /\ process_command "r" s =
     Ok PyNone (if is_recording s then printed (Line "Already recording.") s
                else started_recording s)
  /\ threads (spawned HomeNew s) = threads s ++ [HomeNew]
  /\ threads (spawned PlaybackNew s) = threads s ++ [PlaybackNew]
  /\ return_to_neutral_slowly (set_is_recording true s) =
     Ok Finished (printed (Line "Cannot return to home while recording.")
                          (set_is_recording true s)).
Proof.
  split; [apply process_command_h|].
  split; [apply process_command_p|].
  split; [apply process_command_r|].
  split; [reflexivity|]. split; [reflexivity|].
  now apply return_to_neutral_slowly_refused.
Qed.

(** ** Running a playback thread *)

Lemma nth_error_lt {A : Type} (l : list A) n x :
  nth_error l n = Some x -> (n < List.length l)%nat.
Proof. intros H. apply nth_error_Some. congruence. Qed.

Lemma replace_nth_same {A : Type} n (x : A) l :
  nth_error l n = Some x -> replace_nth n x l = l.
Proof.
  revert n. induction l as [|y l IH]; intros [|n]; simpl; intros H;
    try discriminate.
  - now injection H as ->.
  - f_equal. auto.
Qed.

Lemma skipn_nth_error {A : Type} (l : list A) i x :
  nth_error l i = Some x -> skipn i l = x :: skipn (S i) l.
Proof.
  revert i. induction l as [|y l IH]; intros [|i]; simpl; intros H;
    try discriminate.
  - now injection H as ->.
  - now apply IH.
Qed.

Lemma last_cons {A : Type} (x d : A) l : last (x :: l) d = last l x.
Proof.
  revert x d. induction l as [|y l IH]; intros x d; [reflexivity|].
  change (last (x :: y :: l) d) with (last (y :: l) d).
  now rewrite (IH y d), (IH y x).
Qed.

Lemma step_tick tid s : step (Tick tid) s = tick tid s.
Proof. reflexivity. Qed.

Lemma run_cons ev evs s s1 :
  step ev s = Ok tt s1 -> run (ev :: evs) s = run evs s1.
Proof. intros E. simpl. now rewrite (bind_ok _ _ _ _ _ E). Qed.

(** A tick of a finished thread does nothing. *)
Lemma ticks_finished tid n s :
  nth_error (threads s) tid = Some Finished ->
  run (repeat (Tick tid) n) s = Ok tt s.
Proof.
  intros Hn. induction n as [|n IH]; [reflexivity|].
  simpl repeat. rewrite (run_cons _ _ s s); [exact IH|].
  rewrite step_tick, (tick_eq tid Finished Finished s s Hn eq_refl).
  rewrite replace_nth_same by assumption. now destruct s.
Qed.

Lemma playback_ticks tid j :
  forall i s,
    Playing tid i s ->
    (i + j <= List.length (recorded_path s))%nat ->
    exists s',
      run (repeat (Tick tid) j) s = Ok tt s'
      /\ Playing tid (i + j) s'
      /\ recorded_path s' = recorded_path s
      /\ is_recording s' = is_recording s
      /\ console s' = console s
      /\ hw s' = hw s ++ List.concat (firstn j (skipn i (recorded_path s)))
      /\ current_angles s' =
         last (firstn j (skipn i (recorded_path s))) (current_angles s).
Proof.
  induction j as [|j IH]; intros i s HP Hlen.
  - exists s. rewrite Nat.add_0_r. simpl. rewrite app_nil_r.
    split; [reflexivity|]. split; [exact HP|]. now repeat split.
  - destruct HP as [HI Hs Ht].
    destruct (nth_error (recorded_path s) i) as [snapshot|] eqn:Hn;
      [|apply nth_error_None in Hn; lia].
    pose proof (playback_for_next i snapshot s HI Hn Hs) as E.
    pose proof (tick_eq tid _ _ s _ Ht E) as Et. simpl threads in Et.
    assert (Hok : angles_ok snapshot).
    { pose proof (inv_path _ HI) as Hp. rewrite Forall_forall in Hp.
      eapply Hp, nth_error_In, Hn. }
    set (s1 := set_threads (replace_nth tid (PlaybackSleeping (S i)) (threads s))
                           (applied snapshot s)) in *.
    assert (HP1 : Playing tid (S i) s1).
    { split; [|exact Hs|].
      - apply (Inv_with s); try apply HI; [reflexivity | exact Hok |].
        simpl. apply Forall_replace_nth; [exact I | apply HI].
      - simpl. apply nth_error_replace_nth. eapply nth_error_lt, Ht. }
    destruct (IH (S i) s1 HP1) as (s' & Er & HP' & Ep & Erec & Eo & Eh & Ec);
      [simpl; lia|].
    exists s'. simpl repeat. rewrite (run_cons (Tick tid) _ s s1 Et).
    rewrite (skipn_nth_error _ _ _ Hn). simpl firstn. simpl List.concat.
    rewrite last_cons, Nat.add_succ_r.
    split; [exact Er|]. split; [exact HP'|]. split; [exact Ep|].
    split; [exact Erec|]. split; [exact Eo|].
    split; [rewrite Eh; simpl; now rewrite <- app_assoc | exact Ec].
Qed.

(** The first segment of a playback thread over a trajectory that is not
    empty. *)
Lemma playback_first_tick tid snapshot rest s :
  Inv s -> stop_event s = false ->
  nth_error (threads s) tid = Some PlaybackNew ->
  recorded_path s = snapshot :: rest ->
  exists s',
    step (Tick tid) s = Ok tt s'
    /\ Playing tid 1 s'
    /\ recorded_path s' = recorded_path s
    /\ is_recording s' = is_recording s
    /\ console s' = console s ++ [Line "--- Starting Playback ---"]
    /\ hw s' = hw s ++ Dict.items snapshot
    /\ current_angles s' = snapshot.
Proof.
  intros HI Hs Ht Hp.
  set (s0 := printed (Line "--- Starting Playback ---") s).
  assert (HI0 : Inv s0) by now apply Inv_printed.
  assert (Hn : nth_error (recorded_path s0) 0 = Some snapshot)
    by (simpl; now rewrite Hp).
  assert (E : resume PlaybackNew s = Ok (PlaybackSleeping 1) (applied snapshot s0)).
  { simpl. rewrite playback_path_start by (rewrite Hp; discriminate).
    now apply playback_for_next. }
  assert (Hok : angles_ok snapshot).
  { pose proof (inv_path _ HI) as Hf. rewrite Hp in Hf. now inversion Hf. }
  eexists. split; [exact (tick_eq tid _ _ s _ Ht E)|].
  split; [|now repeat split].
  split; [|exact Hs|].
  - apply (Inv_with s); try apply HI; [reflexivity | exact Hok |].
    simpl. apply Forall_replace_nth; [exact I | apply HI].
  - simpl. apply nth_error_replace_nth. eapply nth_error_lt, Ht.
Qed.

Lemma playback_run tid k snapshot rest s :
  Inv s -> stop_event s = false ->
  nth_error (threads s) tid = Some PlaybackNew ->
  recorded_path s = snapshot :: rest ->
  (k <= List.length rest)%nat ->
  exists s',
    run (repeat (Tick tid) (S k)) s = Ok tt s'
    /\ Playing tid (S k) s'
    /\ recorded_path s' = recorded_path s
    /\ is_recording s' = is_recording s
    /\ console s' = console s ++ [Line "--- Starting Playback ---"]
    /\ hw s' = hw s ++ List.concat (firstn (S k) (recorded_path s))
    /\ current_angles s' = last (firstn (S k) (recorded_path s)) (current_angles s).
Proof.
  intros HI Hs Ht Hp Hk.
  destruct (playback_first_tick tid snapshot rest s HI Hs Ht Hp)
    as (s1 & E1 & HP1 & Ep1 & Er1 & Eo1 & Eh1 & Ec1).
  destruct (playback_ticks tid k 1 s1 HP1)
    as (s' & E & HP & Ep & Er & Eo & Eh & Ec);
    [rewrite Ep1, Hp; simpl; lia|].
  exists s'. simpl repeat. rewrite (run_cons (Tick tid) _ s s1 E1).
  rewrite Ep1, Hp in Eh, Ec. simpl skipn in Eh, Ec.
  rewrite Hp. simpl firstn. simpl List.concat. rewrite last_cons.
  split; [exact E|]. split; [exact HP|].
  split; [now rewrite Ep, Ep1|]. split; [now rewrite Er, Er1|].
  split; [now rewrite Eo, Eo1|].
  split; [now rewrite Eh, Eh1, <- app_assoc | now rewrite Ec, Ec1].
Qed.

(** The segment that finds the trajectory exhausted. *)
Lemma playback_last_tick tid i s :
  Playing tid i s -> (List.length (recorded_path s) <= i)%nat ->
  exists o,
    step (Tick tid) s =
    Ok tt (set_threads (replace_nth tid Finished (threads s))
             (printed o (printed (Line "--- Playback Finished ---") s))).
Proof.
  intros [HI Hs Ht] Hlen.
  destruct (playback_for_done i s HI) as [o E]; [now apply nth_error_None|].
  exists o. exact (tick_eq tid _ _ s _ Ht E).
Qed.

(** The segment that finds the stop signal set before a step. *)
Lemma playback_interrupted_tick tid i s :
  Inv s -> stop_event s = true ->
  nth_error (threads s) tid = Some (PlaybackSleeping i) ->
  (i < List.length (recorded_path s))%nat ->
  exists o,
    step (Tick tid) s =
    Ok tt (set_threads (replace_nth tid Finished (threads s))
             (printed o (printed (Line "--- Playback Finished ---")
                           (printed (Line "Playback interrupted.") s)))).
Proof.
  intros HI Hs Ht Hlen.
  destruct (nth_error (recorded_path s) i) as [snapshot|] eqn:Hn;
    [|apply nth_error_None in Hn; lia].
  destruct (playback_for_stop i snapshot s HI Hn Hs) as [o E].
  exists o. exact (tick_eq tid _ _ s _ Ht E).
Qed.

Lemma step_esc s :
  stop_event s = false ->
  step Esc s =
  Ok tt (set_stop_event true (printed (Line "'Esc' key pressed. Shutting down...") s)).
Proof. intros Hs. unfold step, bind, gets. now rewrite Hs. Qed.

Lemma step_begin_playback s :
  Inv s -> stop_event s = false -> is_recording s = false ->
  exists o, step (Key "p") s = Ok tt (printed o (spawned PlaybackNew s)).
Proof.
  intros HI Hs Hr. apply (step_key_eq "p" s); [exact Hs | | apply HI].
  now rewrite process_command_p, Hr.
Qed.

(** C5: playback of a trajectory of more than [k] snapshots, [k] at least
    one, is started and runs for [k] steps; then the stop signal is set.
    The thread's next segment tests the signal before its step, writes
    nothing, prints the interruption and ends; the servo log stays at the
    writes of the first [k] snapshots and the stored angles stay equal to
    snapshot [k]. *)
Theorem playback_cancelled_at_step (s : State) (k more : nat) :
  Inv s -> stop_event s = false -> is_recording s = false ->
  (1 <= k < List.length (recorded_path s))%nat ->
  exists sk s',
    run (Key "p" :: repeat (Tick (List.length (threads s))) k) s = Ok tt sk
    /\ hw sk = hw s ++ List.concat (firstn k (recorded_path s))
    /\ Some (current_angles sk) = nth_error (recorded_path s) (k - 1)
    /\ nth_error (threads sk) (List.length (threads s)) = Some (PlaybackSleeping k)
    /\ run (Esc :: repeat (Tick (List.length (threads s))) (S more)) sk = Ok tt s'
    /\ hw s' = hw sk
    /\ current_angles s' = current_angles sk
    /\ In (Line "Playback interrupted.") (console s')
    /\ nth_error (threads s') (List.length (threads s)) = Some Finished.
Proof.
  intros HI Hs Hr [Hk1 Hk2].
  set (tid := List.length (threads s)).
  destruct (step_begin_playback s HI Hs Hr) as [o Ep].
  set (s0 := printed o (spawned PlaybackNew s)) in *.
  assert (HI0 : Inv s0) by now apply Inv_printed, Inv_spawned.
  assert (Ht0 : nth_error (threads s0) tid = Some PlaybackNew)
    by apply nth_error_snoc.
  destruct (recorded_path s) as [|snapshot rest] eqn:Hpath; [simpl in Hk2; lia|].
  destruct k as [|k]; [lia|]. simpl in Hk2.
  destruct (playback_run tid k snapshot rest s0 HI0 Hs Ht0 Hpath)
    as (sk & Ek & [HIk Hsk Htk] & Epk & _ & _ & Ehk & Eck); [lia|].
  simpl recorded_path in Ehk, Eck. rewrite Hpath in Ehk, Eck.
  set (s1 := set_stop_event true
               (printed (Line "'Esc' key pressed. Shutting down...") sk)).
  assert (HI1 : Inv s1) by now apply Inv_stop, Inv_printed.
  destruct (playback_interrupted_tick tid (S k) s1 HI1 eq_refl Htk) as [o' Et].
  { simpl. rewrite Epk. simpl. rewrite Hpath. simpl. lia. }
  match type of Et with _ = Ok tt ?x => set (s2 := x) in * end.
  assert (Ht2 : nth_error (threads s2) tid = Some Finished).
  { simpl. apply nth_error_replace_nth. eapply nth_error_lt, Htk. }
  exists sk, s2.
  split; [rewrite (run_cons (Key "p") _ s s0 Ep); exact Ek|].
  split; [exact Ehk|].
  split.
  { rewrite Eck. replace (S k - 1)%nat with k by lia.
    assert (Hgen : forall (l : list (Dict.t Z)) n d x, (n <= List.length l)%nat ->
              Some (last (firstn (S n) (x :: l)) d) = nth_error (x :: l) n).
    { induction l as [|y l IHl]; intros n d x Hn.
      - simpl in Hn. replace n with 0%nat by lia. reflexivity.
      - destruct n as [|n]; [reflexivity|].
        change (firstn (S (S n)) (x :: y :: l)) with (x :: firstn (S n) (y :: l)).
        rewrite last_cons. simpl nth_error. apply IHl. simpl in Hn. lia. }
    apply Hgen. lia. }
  split; [exact Htk|].
  split.
  { rewrite (run_cons Esc _ sk s1 (step_esc sk Hsk)).
    simpl repeat. rewrite (run_cons (Tick tid) _ s1 s2 Et).
    now apply ticks_finished. }
  split; [reflexivity|]. split; [reflexivity|].
  split; [|exact Ht2].
  simpl. rewrite !in_app_iff. simpl. tauto.
Qed.

Lemma Inv_three_moves_recorded : Inv three_moves_recorded.
Proof.
  destruct (run_inv [Key "r"; Key "up"; Key "up"; Key "up"; Key "o"] boot Inv_boot)
    as (s & E & HI).
  unfold three_moves_recorded. now rewrite E.
Qed.

Lemma playback_cancelled_at_step_witness :
  (Inv three_moves_recorded
   /\ stop_event three_moves_recorded = false
   /\ is_recording three_moves_recorded = false
   /\ (1 <= 2 < List.length (recorded_path three_moves_recorded))%nat)
  /\ exists sk s',
    run (Key "p" :: repeat (Tick (List.length (threads three_moves_recorded))) 2)
        three_moves_recorded = Ok tt sk
    /\ hw sk = hw three_moves_recorded
               ++ List.concat (firstn 2 (recorded_path three_moves_recorded))
    /\ Some (current_angles sk) = nth_error (recorded_path three_moves_recorded) (2 - 1)
    /\ nth_error (threads sk) (List.length (threads three_moves_recorded))
       = Some (PlaybackSleeping 2)
    /\ run (Esc :: repeat (Tick (List.length (threads three_moves_recorded))) (S 0)) sk
       = Ok tt s'
    /\ hw s' = hw sk
    /\ current_angles s' = current_angles sk
    /\ In (Line "Playback interrupted.") (console s')
    /\ nth_error (threads s') (List.length (threads three_moves_recorded))
       = Some Finished.
Proof.
  assert (Hk : (1 <= 2 < List.length (recorded_path three_moves_recorded))%nat)
    by (vm_compute; lia).
  split; [split; [exact Inv_three_moves_recorded
                 | split; [reflexivity | split; [reflexivity | exact Hk]]]|].
  exact (playback_cancelled_at_step three_moves_recorded 2 0
           Inv_three_moves_recorded eq_refl eq_refl Hk).
Defined.

(** ** Recording *)

Lemma jog_all_control ms s : same_control s (jog_all ms s).
Proof.
  unfold jog_all. revert s. induction ms as [|m ms IH]; intros s; simpl.
  - apply same_control_refl.
  - eapply same_control_trans; [|apply IH].
    unfold jog. destruct (Dict.get _ _); now repeat split.
Qed.

Lemma step_move command s :
  is_move command -> Inv s -> stop_event s = false ->
  exists s',
    step (Key command) s = Ok tt s'
    /\ Inv s' /\ stop_event s' = false
    /\ is_recording s' = is_recording s
    /\ threads s' = threads s
    /\ recorded_path s' =
       recorded_path s ++ (if is_recording s then [current_angles s'] else []).
Proof.
  intros Hm HI Hs. unfold is_move in Hm.
  destruct (moves_of command) as [ms|] eqn:Em; [|congruence].
  pose proof (process_command_move command ms s Em HI) as E.
  pose proof (Inv_jog_all ms s (moves_of_joints _ _ Em) HI) as HJ.
  destruct (jog_all_control ms s) as (_ & C2 & C3 & C4 & C5).
  destruct (step_key_eq command s _ Hs E) as [o Eo];
    [rewrite current_angles_recorded; apply HJ|].
  eexists. split; [exact Eo|].
  split; [now apply Inv_printed, Inv_recorded|].
  unfold printed. simpl.
  rewrite current_angles_recorded, recorded_path_recorded.
  unfold recorded. rewrite C2, C3.
  destruct (is_recording s); simpl; rewrite C4, C5; now repeat split.
Qed.

Lemma snapshots_after_cons command rest s s1 :
  step (Key command) s = Ok tt s1 ->
  snapshots_after (command :: rest) s = current_angles s1 :: snapshots_after rest s1.
Proof. intros E. cbn [snapshots_after]. now rewrite E. Qed.

Lemma run_moves commands :
  forall s,
    Forall is_move commands -> Inv s -> stop_event s = false ->
    exists s',
      run (map Key commands) s = Ok tt s'
      /\ Inv s' /\ stop_event s' = false
      /\ is_recording s' = is_recording s
      /\ threads s' = threads s
      /\ recorded_path s' =
         recorded_path s
         ++ (if is_recording s then snapshots_after commands s else [])
      /\ List.length (snapshots_after commands s) = List.length commands.
Proof.
  induction commands as [|c cs IH]; intros s Hall HI Hs.
  - exists s. simpl.
    split; [reflexivity|]. split; [exact HI|]. split; [exact Hs|].
    split; [reflexivity|]. split; [reflexivity|]. split; [|reflexivity].
    destruct (is_recording s); now rewrite app_nil_r.
  - inversion Hall as [|? ? Hc Hcs]; subst.
    destruct (step_move c s Hc HI Hs) as (s1 & E1 & HI1 & Hs1 & Hr1 & Ht1 & Hp1).
    destruct (IH s1 Hcs HI1 Hs1) as (s' & E & HI' & Hs' & Hr' & Ht' & Hp' & Hl').
    exists s'. simpl map. rewrite (run_cons (Key c) _ s s1 E1).
    rewrite (snapshots_after_cons c cs s s1 E1).
    split; [exact E|]. split; [exact HI'|]. split; [exact Hs'|].
    split; [congruence|]. split; [congruence|].
    split; [|simpl; now rewrite Hl'].
    rewrite Hp', Hp1, Hr1. destruct (is_recording s);
      [now rewrite <- app_assoc | now rewrite !app_nil_r].
Qed.

Lemma run_snoc evs ev s s1 s2 :
  run evs s = Ok tt s1 -> step ev s1 = Ok tt s2 -> run (evs ++ [ev]) s = Ok tt s2.
Proof.
  intros E1 E2. rewrite run_app, (bind_ok _ _ _ _ _ E1).
  simpl. now rewrite (bind_ok _ _ _ _ _ E2).
Qed.

(** A whole playback run with nobody else touching the state: one segment
    per snapshot and a last one that ends the thread. *)
Lemma playback_complete tid s :
  Inv s -> stop_event s = false ->
  nth_error (threads s) tid = Some PlaybackNew ->
  exists s',
    run (repeat (Tick tid) (S (List.length (recorded_path s)))) s = Ok tt s'
    /\ hw s' = hw s ++ List.concat (recorded_path s)
    /\ current_angles s' = last (recorded_path s) (current_angles s)
    /\ recorded_path s' = recorded_path s
    /\ nth_error (threads s') tid = Some Finished.
Proof.
  intros HI Hs Ht. destruct (recorded_path s) as [|snapshot rest] eqn:Hp.
  - pose proof (tick_eq tid _ _ s _ Ht (playback_path_empty s Hp)) as Et.
    eexists. split; [simpl; rewrite (bind_ok _ _ _ _ _ Et); reflexivity|].
    simpl. rewrite app_nil_r.
    split; [reflexivity|]. split; [reflexivity|]. split; [exact Hp|].
    apply nth_error_replace_nth. eapply nth_error_lt, Ht.
  - destruct (playback_run tid (List.length rest) snapshot rest s HI Hs Ht Hp)
      as (s1 & E1 & HP1 & Ep1 & _ & _ & Eh1 & Ec1); [lia|].
    rewrite Hp in Eh1, Ec1.
    change (S (List.length rest)) with (List.length (snapshot :: rest)) in Eh1, Ec1.
    rewrite firstn_all in Eh1, Ec1.
    destruct (playback_last_tick tid _ s1 HP1) as [o Et];
      [rewrite Ep1, Hp; simpl; lia|].
    eexists. split.
    + change (repeat (Tick tid) (S (List.length (snapshot :: rest))))
        with (Tick tid :: repeat (Tick tid) (List.length (snapshot :: rest))).
      rewrite repeat_cons. exact (run_snoc _ _ _ _ _ E1 Et).
    + simpl. split; [exact Eh1|]. split; [exact Ec1|].
      split; [now rewrite Ep1|].
      apply nth_error_replace_nth. eapply nth_error_lt, (playing_thread _ _ _ HP1).
Qed.

(** C3: a session is opened, [moves] holds the N movement commands given
    during it, and the session is closed: the trajectory holds N
    snapshots, the stored angles after each move in turn.  Whatever manual
    moves follow, a playback run that is left to finish writes the
    snapshots out one after the other in that order, every joint of each
    (N absolute snapshot writes, none through the clamping of relative
    moves), and ends with the stored angles equal to the last recorded
    snapshot. *)
Theorem playback_fidelity (moves between : list string) (s : State) :
  Inv s -> stop_event s = false -> is_recording s = false ->
  Forall is_move moves -> Forall is_move between ->
  exists sr s_rec s_mid s_end,
    step (Key "r") s = Ok tt sr
    /\ run (map Key moves ++ [Key "o"]) sr = Ok tt s_rec
    /\ recorded_path s_rec = snapshots_after moves sr
    /\ List.length (recorded_path s_rec) = List.length moves
    /\ run (map Key between) s_rec = Ok tt s_mid
    /\ run (Key "p" :: repeat (Tick (List.length (threads s)))
                              (S (List.length moves))) s_mid = Ok tt s_end
    /\ hw s_end = hw s_mid ++ List.concat (map Dict.items (recorded_path s_rec))
    /\ current_angles s_end = last (recorded_path s_rec) (current_angles s_mid)
    /\ recorded_path s_end = recorded_path s_rec
    /\ nth_error (threads s_end) (List.length (threads s)) = Some Finished.
Proof.
  intros HI Hs Hr Hmoves Hbetween.
  (* begin-record *)
  destruct (step_key_eq "r" s (started_recording s) Hs) as [o1 E1];
    [now rewrite process_command_r, Hr | apply HI |].
  set (sr := printed o1 (started_recording s)) in *.
  assert (HIr : Inv sr) by now apply Inv_printed, Inv_started_recording.
  (* the recorded moves *)
  destruct (run_moves moves sr Hmoves HIr Hs)
    as (s2 & E2 & HI2 & Hs2 & Hr2 & Ht2 & Hp2 & Hl2).
  simpl in Hr2, Ht2, Hp2.
  (* end-record *)
  destruct (step_key_eq "o" s2
              (printed (RecordingStopped (List.length (recorded_path s2)))
                       (set_is_recording false s2)) Hs2) as [o3 E3];
    [now rewrite process_command_o, Hr2 | apply HI2 |].
  match type of E3 with _ = Ok tt ?x => set (s_rec := x) in * end.
  assert (HI3 : Inv s_rec) by now apply Inv_printed, Inv_printed, Inv_flag.
  (* moves outside the session *)
  destruct (run_moves between s_rec Hbetween HI3 Hs2)
    as (s4 & E4 & HI4 & Hs4 & Hr4 & Ht4 & Hp4 & _).
  simpl in Hr4, Ht4, Hp4. rewrite app_nil_r in Hp4.
  (* begin-playback and the run *)
  destruct (step_begin_playback s4 HI4 Hs4 Hr4) as [o5 E5].
  set (s5 := printed o5 (spawned PlaybackNew s4)) in *.
  assert (HI5 : Inv s5) by now apply Inv_printed, Inv_spawned.
  assert (Ht5 : nth_error (threads s5) (List.length (threads s)) = Some PlaybackNew).
  { simpl. rewrite Ht4, Ht2. apply nth_error_snoc. }
  destruct (playback_complete _ s5 HI5 Hs4 Ht5) as (s6 & E6 & Eh & Ec & Ep & Et).
  simpl in E6, Eh, Ec, Ep. rewrite Hp4, Hp2 in E6, Eh, Ec, Ep.
  rewrite Hl2 in E6.
  exists sr, s_rec, s4, s6.
  split; [exact E1|].
  split; [exact (run_snoc _ _ _ _ _ E2 E3)|].
  split; [exact Hp2|].
  split; [simpl; now rewrite Hp2|].
  split; [exact E4|].
  split; [rewrite (run_cons (Key "p") _ s4 s5 E5); exact E6|].
  simpl recorded_path. rewrite Hp2.
  change (map (@Dict.items Z) (snapshots_after moves sr))
    with (map (fun d : Dict.t Z => d) (snapshots_after moves sr)).
  rewrite map_id.
  split; [exact Eh|]. split; [exact Ec|]. split; [exact Ep | exact Et].
Qed.

Lemma playback_fidelity_witness :
  (Inv boot /\ stop_event boot = false /\ is_recording boot = false
   /\ Forall is_move ["up"; "left"; "w"] /\ Forall is_move ["down"; "s"])
  /\ exists sr s_rec s_mid s_end,
    step (Key "r") boot = Ok tt sr
    /\ run (map Key ["up"; "left"; "w"] ++ [Key "o"]) sr = Ok tt s_rec
    /\ recorded_path s_rec = snapshots_after ["up"; "left"; "w"] sr
    /\ List.length (recorded_path s_rec) = List.length ["up"; "left"; "w"]
    /\ run (map Key ["down"; "s"]) s_rec = Ok tt s_mid
    /\ run (Key "p" :: repeat (Tick (List.length (threads boot)))
                              (S (List.length ["up"; "left"; "w"]))) s_mid
       = Ok tt s_end
    /\ hw s_end = hw s_mid ++ List.concat (map Dict.items (recorded_path s_rec))
    /\ current_angles s_end = last (recorded_path s_rec) (current_angles s_mid)
    /\ recorded_path s_end = recorded_path s_rec
    /\ nth_error (threads s_end) (List.length (threads boot)) = Some Finished.
Proof.
  assert (H1 : Forall is_move ["up"; "left"; "w"])
    by (repeat constructor; discriminate).
  assert (H2 : Forall is_move ["down"; "s"])
    by (repeat constructor; discriminate).
  split; [split; [exact Inv_boot
                 | split; [reflexivity | split; [reflexivity | split; assumption]]]|].
  exact (playback_fidelity ["up"; "left"; "w"] ["down"; "s"] boot
           Inv_boot eq_refl eq_refl H1 H2).
Defined.

(** ** Homing *)

Lemma toward_cases target current :
  (current < target -> toward target current = current + 1)
  /\ (target < current -> toward target current = current - 1)
  /\ (current = target -> toward target current = current).
Proof.
  unfold toward. destruct (Z.eqb_spec current target);
    destruct (Z.ltb_spec current target); repeat split; lia.
Qed.

Lemma distance_nonneg d : 0 <= distance_from_neutral d.
Proof. induction d as [|[k v] d IH]; simpl; lia. Qed.

Lemma home_tick_cons k v d :
  home_tick ((k, v) :: d) = (k, toward (neutral k) v) :: home_tick d.
Proof. reflexivity. Qed.

Lemma off_neutral_cons k v d :
  off_neutral ((k, v) :: d) = negb (v =? neutral k) || off_neutral d.
Proof. reflexivity. Qed.

Lemma distance_home_tick d :
  distance_from_neutral (home_tick d) <= distance_from_neutral d
  /\ (off_neutral d = true ->
      distance_from_neutral (home_tick d) < distance_from_neutral d)
  /\ (off_neutral d = false -> home_tick d = d /\ distance_from_neutral d = 0).
Proof.
  induction d as [|[k v] d (IH1 & IH2 & IH3)]; [simpl; repeat split; lia || discriminate|].
  rewrite home_tick_cons, off_neutral_cons. cbn [distance_from_neutral].
  destruct (toward_cases (neutral k) v) as (T1 & T2 & T3).
  destruct (Z.eqb_spec v (neutral k)) as [Ev|Ev]; cbn [negb orb].
  - rewrite (T3 Ev). split; [lia|]. split; [intros H; specialize (IH2 H); lia|].
    intros H. destruct (IH3 H) as [F1 F2]. rewrite F1. split; [reflexivity | lia].
  - split; [|split; [intros _ | discriminate]];
      destruct (Z.lt_total v (neutral k)) as [L|[L|L]]; try contradiction;
      try (rewrite (T1 L)); try (rewrite (T2 L)); lia.
Qed.

Lemma get_home_tick name current d :
  Dict.get name d = Some current ->
  Dict.get name (home_tick d) = Some (toward (neutral name) current).
Proof.
  induction d as [|[k v] d IH]; simpl; [discriminate|].
  destruct (String.eqb_spec name k) as [->|Hne]; [now intros [= ->] | exact IH].
Qed.

Lemma distance_zero_neutral d :
  Dict.keys d = JOINTS -> distance_from_neutral d = 0 -> d = NEUTRAL_ANGLES.
Proof.
  intros Hk. destruct (keys_joints d Hk) as (v1 & v2 & v3 & v4 & v5 & v6 & v7 & ->).
  unfold distance_from_neutral, neutral. simpl. intros H.
  unfold NEUTRAL_ANGLES. repeat f_equal; lia.
Qed.

Lemma Homing_after tid th' s s' :
  Inv s' -> stop_event s' = false -> is_recording s' = false ->
  nth_error (threads s) tid <> None -> threads s' = threads s ->
  homing_thread s' th' -> thread_ok th' ->
  Homing tid (set_threads (replace_nth tid th' (threads s')) s').
Proof.
  intros HI Hs Hr Hn Ht Hth Hok. split; try assumption.
  - apply (Inv_with s'); try apply HI; [reflexivity|]. simpl.
    apply Forall_replace_nth; [assumption | apply HI].
  - exists th'. simpl. split.
    + apply nth_error_replace_nth. rewrite Ht. now apply nth_error_Some.
    + destruct th'; simpl in *; assumption.
Qed.

(** A segment that starts at the loop test, from a state [s0] that
    differs from [s] by console output only. *)
Lemma homing_segment tid th s s0 :
  Homing tid s ->
  nth_error (threads s) tid = Some th ->
  resume th s = home_while (current_angles s) s0 ->
  Inv s0 -> same_control s s0 -> current_angles s0 = current_angles s ->
  exists s',
    step (Tick tid) s = Ok tt s'
    /\ Homing tid s'
    /\ current_angles s' = home_tick (current_angles s)
    /\ (nth_error (threads s') tid = Some Finished
        <-> off_neutral (current_angles s) = false).
Proof.
  intros [HI Hs Hr _] Ht E0 HI0 (C1 & C2 & C3 & C4 & C5) Hc0.
  assert (Hnn : nth_error (threads s) tid <> None) by congruence.
  assert (Hk0 : Dict.keys (current_angles s) = JOINTS) by apply HI.
  assert (Hs0 : stop_event s0 = false) by congruence.
  assert (Hr0 : is_recording s0 = false) by congruence.
  destruct (distance_home_tick (current_angles s)) as (_ & _ & Hfix).
  destruct (off_neutral (current_angles s)) eqn:Hoff.
  - destruct (home_while_tick (current_angles s) s0 Hk0 Hoff Hs0 HI0)
      as (s' & E & HI' & (D1 & D2 & D3 & D4 & D5) & _ & Hsync).
    rewrite <- E0 in E. specialize (Hsync Hc0).
    eexists. split; [exact (tick_eq tid _ _ s _ Ht E)|].
    split.
    { apply (Homing_after tid _ s); try congruence.
      simpl. now rewrite keys_home_tick. }
    split; [exact Hsync|].
    simpl. rewrite nth_error_replace_nth
      by (rewrite D5, C5; now apply nth_error_Some).
    split; discriminate.
  - rewrite (home_while_done _ s0 Hk0 Hoff) in E0.
    destruct (home_end_eq s0) as (s' & E & (D1 & D2 & D3 & D4 & D5) & Hc & _);
      [rewrite Hc0; exact Hk0|].
    rewrite <- E0 in E.
    assert (Hcur : current_angles s' = current_angles s) by congruence.
    destruct (Hfix eq_refl) as [Hfixed _].
    eexists. split; [exact (tick_eq tid _ _ s _ Ht E)|].
    split.
    { apply (Homing_after tid _ s); try congruence.
      - apply (Inv_same_control s); [assumption | repeat split; congruence|].
        rewrite Hcur. apply HI.
      - exact I. }
    split; [simpl; congruence|].
    simpl. rewrite nth_error_replace_nth
      by (rewrite D5, C5; now apply nth_error_Some).
    tauto.
Qed.

(** One segment of the homing thread. *)
Lemma homing_tick tid s :
  Homing tid s ->
  exists s',
    step (Tick tid) s = Ok tt s'
    /\ Homing tid s'
    /\ current_angles s' = home_tick (current_angles s)
    /\ (nth_error (threads s') tid = Some Finished
        <-> off_neutral (current_angles s) = false).
Proof.
  intros HH. pose proof HH as [HI Hs Hr (th & Ht & Hth)].
  destruct th; simpl in Hth; try contradiction.
  - apply (homing_segment tid HomeNew s
             (printed (Line "Returning to neutral position slowly...") s));
      try assumption; try now repeat split.
    + simpl. now apply return_to_neutral_slowly_start.
    + now apply Inv_printed.
  - subst. apply (homing_segment tid _ s s HH Ht); try assumption;
      now repeat split.
  - destruct (distance_home_tick (current_angles s)) as (_ & _ & Hfix).
    destruct (Hfix Hth) as [Hfixed _].
    exists s. rewrite step_tick, (tick_eq tid _ _ s s Ht eq_refl).
    rewrite replace_nth_same by assumption.
    split; [now destruct s|].
    split; [exact HH|]. split; [now symmetry | tauto].
Qed.

Lemma homing_run tid n :
  forall s,
    Homing tid s ->
    exists s',
      run (repeat (Tick tid) n) s = Ok tt s'
      /\ Homing tid s'
      /\ distance_from_neutral (current_angles s')
         <= Z.max 0 (distance_from_neutral (current_angles s) - Z.of_nat n).
Proof.
  induction n as [|n IH]; intros s HH.
  - exists s. split; [reflexivity|]. split; [exact HH|].
    pose proof (distance_nonneg (current_angles s)). lia.
  - destruct (homing_tick tid s HH) as (s1 & E1 & HH1 & Ec1 & _).
    destruct (IH s1 HH1) as (s' & E & HH' & Hd).
    exists s'. simpl repeat. rewrite (run_cons (Tick tid) _ s s1 E1).
    split; [exact E|]. split; [exact HH'|].
    destruct (distance_home_tick (current_angles s)) as (D1 & D2 & D3).
    rewrite Ec1 in Hd.
    pose proof (distance_nonneg (current_angles s)).
    destruct (off_neutral (current_angles s)).
    + specialize (D2 eq_refl). lia.
    + destruct (D3 eq_refl) as [_ D0]. lia.
Qed.

Lemma off_neutral_distance d :
  off_neutral d = false <-> distance_from_neutral d = 0.
Proof.
  destruct (distance_home_tick d) as (D1 & D2 & D3).
  pose proof (distance_nonneg (home_tick d)).
  destruct (off_neutral d); split; intros H0; try reflexivity.
  - discriminate.
  - specialize (D2 eq_refl). lia.
  - now apply D3.
Qed.

Lemma at_neutral_distance d :
  Dict.keys d = JOINTS ->
  (d = NEUTRAL_ANGLES <-> distance_from_neutral d = 0).
Proof.
  intros Hk. split; [intros ->; reflexivity | now apply distance_zero_neutral].
Qed.

(** C4: homing is started from a state whose angles are in range, with no
    session active and no stop signal, and its thread is resumed [n] times
    and then once more.  That tick moves every joint that is off its
    neutral angle by exactly one degree toward it (not by [INCREMENT]) and
    leaves the others alone; the summed distance from neutral never grows
    and strictly shrinks while it is positive; the thread ends on the tick
    that finds every joint at its neutral angle, which happens at the
    latest when [n] reaches the initial distance. *)
Theorem homing_converges (s : State) (n : nat) :
  Inv s -> stop_event s = false -> is_recording s = false ->
  exists s_n s_next,
    run (Key "h" :: repeat (Tick (List.length (threads s))) n) s = Ok tt s_n
    /\ step (Tick (List.length (threads s))) s_n = Ok tt s_next
    /\ (forall name current,
          Dict.get name (current_angles s_n) = Some current ->
          exists next,
            Dict.get name (current_angles s_next) = Some next
            /\ (current < neutral name -> next = current + 1)
            /\ (neutral name < current -> next = current - 1)
            /\ (current = neutral name -> next = current))
    /\ distance_from_neutral (current_angles s_next)
       <= distance_from_neutral (current_angles s_n)
    /\ (0 < distance_from_neutral (current_angles s_n) ->
        distance_from_neutral (current_angles s_next)
        < distance_from_neutral (current_angles s_n))
    /\ (nth_error (threads s_next) (List.length (threads s)) = Some Finished
        <-> current_angles s_n = NEUTRAL_ANGLES)
    /\ (distance_from_neutral (current_angles s) <= Z.of_nat n ->
        nth_error (threads s_next) (List.length (threads s)) = Some Finished
        /\ current_angles s_next = NEUTRAL_ANGLES).
Proof.
  intros HI Hs Hr. set (tid := List.length (threads s)).
  destruct (step_key_eq "h" s (spawned HomeNew s) Hs (process_command_h s))
    as [o E0]; [apply HI|].
  set (s0 := printed o (spawned HomeNew s)) in *.
  assert (HH0 : Homing tid s0).
  { split; try assumption; [now apply Inv_printed, Inv_spawned|].
    exists HomeNew. split; [apply nth_error_snoc | exact I]. }
  destruct (homing_run tid n s0 HH0) as (sn & En & HHn & Hdn).
  destruct (homing_tick tid sn HHn) as (sx & Ex & HHx & Ecx & Hfin).
  destruct (distance_home_tick (current_angles sn)) as (D1 & D2 & D3).
  pose proof (off_neutral_distance (current_angles sn)) as Hoff.
  pose proof (at_neutral_distance (current_angles sn)
                (proj1 (inv_angles _ (homing_inv _ _ HHn)))) as Hat.
  pose proof (distance_nonneg (current_angles sn)) as Hnn.
  exists sn, sx.
  split; [rewrite (run_cons (Key "h") _ s s0 E0); exact En|].
  split; [exact Ex|].
  split.
  { intros name current Hg. exists (toward (neutral name) current).
    rewrite Ecx. split; [now apply get_home_tick | apply toward_cases]. }
  rewrite Ecx.
  split; [exact D1|].
  split.
  { intros Hpos. apply D2. destruct (off_neutral (current_angles sn)); [reflexivity|].
    destruct Hoff as [Hoff _]. specialize (Hoff eq_refl). lia. }
  split; [rewrite Hfin, Hoff; symmetry; exact Hat|].
  intros Hfuel. simpl current_angles in Hdn.
  assert (Hz : distance_from_neutral (current_angles sn) = 0) by lia.
  split; [now apply Hfin, Hoff|].
  destruct (D3 (proj2 Hoff Hz)) as [-> _]. now apply Hat.
Qed.

Lemma Inv_moved_away : Inv moved_away.
Proof.
  destruct (run_inv [Key "up"; Key "up"; Key "s"] boot Inv_boot) as (s & E & HI).
  unfold moved_away. now rewrite E.
Qed.

Lemma homing_converges_witness :
  (Inv moved_away /\ stop_event moved_away = false
   /\ is_recording moved_away = false)
  /\ exists s_n s_next,
    run (Key "h" :: repeat (Tick (List.length (threads moved_away))) 3) moved_away
    = Ok tt s_n
    /\ step (Tick (List.length (threads moved_away))) s_n = Ok tt s_next
    /\ (forall name current,
          Dict.get name (current_angles s_n) = Some current ->
          exists next,
            Dict.get name (current_angles s_next) = Some next
            /\ (current < neutral name -> next = current + 1)
            /\ (neutral name < current -> next = current - 1)
            /\ (current = neutral name -> next = current))
    /\ distance_from_neutral (current_angles s_next)
       <= distance_from_neutral (current_angles s_n)
    /\ (0 < distance_from_neutral (current_angles s_n) ->
        distance_from_neutral (current_angles s_next)
        < distance_from_neutral (current_angles s_n))
    /\ (nth_error (threads s_next) (List.length (threads moved_away)) = Some Finished
        <-> current_angles s_n = NEUTRAL_ANGLES)
    /\ (distance_from_neutral (current_angles moved_away) <= Z.of_nat 3 ->
        nth_error (threads s_next) (List.length (threads moved_away)) = Some Finished
        /\ current_angles s_next = NEUTRAL_ANGLES).
Proof.
  split; [split; [exact Inv_moved_away | split; reflexivity]|].
  exact (homing_converges moved_away 3 Inv_moved_away eq_refl eq_refl).
Defined.

(** * Further properties of the module *)

(** ** [move_servo] and the dispatcher *)

(** X1: [move_servo] never raises, whatever the name, the angle and the
    state: the membership test guards the lookup of the servo.  For a name
    that is not configured it prints the warning and neither stores nor
    writes anything; for a configured one the only value it stores and
    writes is the clamped one. *)
Theorem move_servo_never_raises (name : string) (angle : Z) (s : State) :
  exists s',
    move_servo name angle s = Ok PyNone s'
    /\ recorded_path s' = recorded_path s
    /\ servos s' = servos s
    /\ (if Dict.mem name (servos s)
        then hw s' = hw s ++ [(name, clamp angle)]
             /\ current_angles s' = Dict.set name (clamp angle) (current_angles s)
             /\ console s' = console s
        else hw s' = hw s
             /\ current_angles s' = current_angles s
             /\ console s' = console s ++ [ServoNotFound name]).
Proof.
  destruct (Dict.mem name (servos s)) eqn:Hm.
  - exists (moved name (clamp angle) s).
    split; [now apply move_servo_eq | now repeat split].
  - exists (printed (ServoNotFound name) s).
    split; [now apply move_servo_unknown | now repeat split].
Qed.

Lemma moves_of_none command :
  ~ In command MOVE_COMMANDS -> moves_of command = None.
Proof.
  unfold MOVE_COMMANDS, moves_of. intros Hn.
  repeat match goal with
  | |- context [String.eqb command ?c] =>
      destruct (String.eqb_spec command c) as [->|?];
      [exfalso; apply Hn; simpl; tauto|]
  end.
  reflexivity.
Qed.

(** X2: a token that is none of the seventeen commands falls into the
    final [else] of [process_command]: the call returns with the state
    untouched; in particular no snapshot is recorded, session or not. *)
Theorem unmapped_token_is_ignored (command : string) (s : State) :
  ~ In command (MOVE_COMMANDS ++ CONTROL_COMMANDS) ->
  process_command command s = Ok PyNone s.
Proof.
  intros Hn. rewrite in_app_iff in Hn.
  apply process_command_other; [apply moves_of_none|]; tauto.
Qed.

Lemma unmapped_token_is_ignored_witness :
  ~ In "W" (MOVE_COMMANDS ++ CONTROL_COMMANDS)
  /\ process_command "W" (started_recording boot)
     = Ok PyNone (started_recording boot).
Proof.
  assert (Hn : ~ In "W" (MOVE_COMMANDS ++ CONTROL_COMMANDS)).
  { simpl. intros H.
    repeat (destruct H as [H|H]; [discriminate H|]). exact H. }
  split; [exact Hn|].
  exact (unmapped_token_is_ignored "W" (started_recording boot) Hn).
Defined.

(** X3: the five control commands never write a servo and never change a
    stored angle, and none of them appends a snapshot: the trajectory is
    left as it is, except that an accepted begin-record empties it. *)
Theorem control_commands_never_move (command : string) (s : State) :
  In command CONTROL_COMMANDS ->
  exists s',
    process_command command s = Ok PyNone s'
    /\ hw s' = hw s
    /\ current_angles s' = current_angles s
    /\ servos s' = servos s
    /\ stop_event s' = stop_event s
    /\ (recorded_path s' = recorded_path s
        \/ (command = "r" /\ is_recording s = false /\ recorded_path s' = [])).
Proof.
  intros Hc. destruct (control_cases _ Hc) as [->|[->|[->|[->| ->]]]].
  - rewrite process_command_r. eexists. split; [reflexivity|].
    destruct (is_recording s); repeat split; auto.
  - rewrite process_command_p. eexists. split; [reflexivity|].
    destruct (is_recording s); repeat split; auto.
  - rewrite process_command_o. eexists. split; [reflexivity|].
    destruct (is_recording s); repeat split; auto.
  - rewrite process_command_h. eexists. split; [reflexivity|].
    repeat split; auto.
  - rewrite process_command_help. eexists. split; [reflexivity|].
    repeat split; auto.
Qed.

Lemma control_commands_never_move_witness :
  In "o" CONTROL_COMMANDS
  /\ exists s',
    process_command "o" (started_recording boot) = Ok PyNone s'
    /\ hw s' = hw (started_recording boot)
    /\ current_angles s' = current_angles (started_recording boot)
    /\ servos s' = servos (started_recording boot)
    /\ stop_event s' = stop_event (started_recording boot)
    /\ (recorded_path s' = recorded_path (started_recording boot)
        \/ ("o" = "r" /\ is_recording (started_recording boot) = false
            /\ recorded_path s' = [])).
Proof.
  assert (Hc : In "o" CONTROL_COMMANDS) by (do 2 right; left; reflexivity).
  split; [exact Hc|].
  exact (control_commands_never_move "o" (started_recording boot) Hc).
Defined.

(** The moves of a command: one joint, or two different joints, each by
    [INCREMENT] up or down. *)
Lemma moves_of_shape command ms :
  moves_of command = Some ms ->
  (exists n d, ms = [(n, d)] /\ Z.abs d = INCREMENT)
  \/ (exists n1 d1 n2 d2,
        ms = [(n1, d1); (n2, d2)] /\ n1 <> n2
        /\ Z.abs d1 = INCREMENT /\ Z.abs d2 = INCREMENT).
Proof.
  unfold moves_of.
  repeat (destruct (String.eqb command _);
          [intros [= <-];
           first [ left; do 2 eexists; split; reflexivity
                 | right; do 4 eexists; split; [reflexivity|];
                   split; [discriminate | split; reflexivity] ] |]).
  discriminate.
Qed.

Lemma clamp_step a d : in_range a -> Z.abs (clamp (a + d) - a) <= Z.abs d.
Proof. unfold in_range, clamp. lia. Qed.

(** The angle of one joint across one relative move. *)
Lemma jog_angle name a s m :
  Inv s -> In (fst m) JOINTS ->
  Dict.get name (current_angles s) = Some a ->
  exists a',
    Dict.get name (current_angles (jog s m)) = Some a'
    /\ (name <> fst m -> a' = a)
    /\ Z.abs (a' - a) <= Z.abs (snd m).
Proof.
  intros HI Hin Ha. destruct m as [n d]. simpl in *.
  destruct (angles_ok_get n _ Hin (inv_angles _ HI)) as (b & Hb & Hbr).
  rewrite (jog_eq n d b s Hb). simpl.
  destruct (String.eqb_spec name n) as [->|Hne].
  - rewrite DictFacts.get_set_eq. eexists. split; [reflexivity|].
    split; [congruence|].
    assert (b = a) by congruence. subst. now apply clamp_step.
  - rewrite DictFacts.get_set_ne by congruence.
    exists a. split; [exact Ha|]. split; [reflexivity|]. lia.
Qed.

(** X4: one movement command changes no joint by more than [INCREMENT]
    degrees, and changes only the joints of the command. *)
Theorem one_key_moves_at_most_increment
        (command : string) (ms : list (string * Z)) (name : string) (a : Z)
        (s : State) :
  Inv s ->
  moves_of command = Some ms ->
  Dict.get name (current_angles s) = Some a ->
  exists s' a',
    process_command command s = Ok PyNone s'
    /\ Dict.get name (current_angles s') = Some a'
    /\ Z.abs (a' - a) <= INCREMENT
    /\ (~ In name (map fst ms) -> a' = a).
Proof.
  intros HI Hm Ha.
  pose proof (moves_of_joints _ _ Hm) as Hj.
  exists (recorded (jog_all ms s)).
  rewrite current_angles_recorded.
  destruct (moves_of_shape _ _ Hm)
    as [(n & d & -> & Hd) | (n1 & d1 & n2 & d2 & -> & Hne & Hd1 & Hd2)].
  - inversion Hj as [|? ? Hn _]; subst.
    destruct (jog_angle name a s (n, d) HI Hn Ha) as (a' & Ha' & Hsame & Hle).
    exists a'. split; [now apply process_command_move|].
    split; [exact Ha'|]. simpl in *. split; [lia|].
    intros Hnot. apply Hsame. intros E. apply Hnot. left. congruence.
  - inversion Hj as [|? ? Hn1 Hj']; subst. inversion Hj' as [|? ? Hn2 _]; subst.
    destruct (jog_angle name a s (n1, d1) HI Hn1 Ha) as (a1 & Ha1 & Hsame1 & Hle1).
    destruct (jog_angle name a1 (jog s (n1, d1)) (n2, d2)
                (Inv_jog _ _ Hn1 HI) Hn2 Ha1) as (a2 & Ha2 & Hsame2 & Hle2).
    exists a2. split; [now apply process_command_move|].
    split; [exact Ha2|]. simpl in *.
    destruct (String.eqb_spec name n1) as [->|Hx1].
    + rewrite (Hsame2 Hne). split; [lia|].
      intros Hnot. exfalso. apply Hnot. now left.
    + rewrite (Hsame1 Hx1) in *. split; [lia|].
      intros Hnot. apply Hsame2. intros E. apply Hnot. right. left. congruence.
Qed.

Lemma one_key_moves_at_most_increment_witness :
  (Inv boot
   /\ moves_of "right" = Some [("base_1", - INCREMENT); ("base_2", INCREMENT)]
   /\ Dict.get "base_2" (current_angles boot) = Some 0)
  /\ exists s' a',
    process_command "right" boot = Ok PyNone s'
    /\ Dict.get "base_2" (current_angles s') = Some a'
    /\ Z.abs (a' - 0) <= INCREMENT
    /\ (~ In "base_2" (map fst [("base_1", - INCREMENT); ("base_2", INCREMENT)])
        -> a' = 0).
Proof.
  split; [split; [exact Inv_boot | split; reflexivity]|].
  exact (one_key_moves_at_most_increment "right" _ "base_2" 0 boot
           Inv_boot eq_refl eq_refl).
Defined.

(** ** What the threads and the commands do to the trajectory *)

Lemma replace_nth_length {A : Type} n (x : A) l :
  List.length (replace_nth n x l) = List.length l.
Proof.
  revert n. induction l as [|y l IH]; intros [|n]; simpl; auto.
Qed.

Lemma tick_control tid s :
  Inv s ->
  exists s',
    tick tid s = Ok tt s'
    /\ recorded_path s' = recorded_path s
    /\ is_recording s' = is_recording s
    /\ stop_event s' = stop_event s
    /\ servos s' = servos s
    /\ List.length (threads s') = List.length (threads s).
Proof.
  intros HI. destruct (nth_error (threads s) tid) as [th|] eqn:Hn.
  - assert (Ht : thread_ok th).
    { pose proof (inv_threads _ HI) as Hf. rewrite Forall_forall in Hf.
      eapply Hf, nth_error_In, Hn. }
    destruct (resume_inv th s HI Ht)
      as (th' & s' & E & _ & _ & (C1 & C2 & C3 & C4 & C5)).
    eexists. split; [exact (tick_eq _ _ _ _ _ Hn E)|]. simpl.
    rewrite replace_nth_length, C5. now repeat split.
  - exists s. unfold tick. rewrite Hn. now repeat split.
Qed.



(** The trajectory across one call of [process_command]. *)
Lemma process_command_path command s :
  Inv s ->
  exists s',
    process_command command s = Ok PyNone s'
    /\ Dict.keys (current_angles s') = JOINTS
    /\ (recorded_path s' = recorded_path s
        \/ (is_recording s = true
            /\ recorded_path s' = recorded_path s ++ [current_angles s'])
        \/ (command = "r" /\ is_recording s = false /\ recorded_path s' = [])).
Proof.
  intros HI. destruct (moves_of command) as [ms|] eqn:Hm.
  - exists (recorded (jog_all ms s)).
    split; [now apply process_command_move|].
    pose proof (Inv_jog_all ms s (moves_of_joints _ _ Hm) HI) as HJ.
    rewrite current_angles_recorded, recorded_path_recorded.
    split; [apply HJ|].
    destruct (jog_all_control ms s) as (_ & C2 & C3 & _).
    rewrite C2, C3. destruct (is_recording s).
    + right. left. now split.
    + left. apply app_nil_r.
  - destruct (in_dec string_dec command CONTROL_COMMANDS) as [Hc|Hc].
    + destruct (control_cases _ Hc) as [->|[->|[->|[->| ->]]]].
      * rewrite process_command_r. eexists. split; [reflexivity|].
        destruct (is_recording s); (split; [apply HI|]); [now left|].
        right. right. now repeat split.
      * rewrite process_command_p. eexists. split; [reflexivity|].
        destruct (is_recording s); (split; [apply HI | now left]).
      * rewrite process_command_o. eexists. split; [reflexivity|].
        destruct (is_recording s); (split; [apply HI | now left]).
      * rewrite process_command_h. eexists. split; [reflexivity|].
        split; [apply HI | now left].
      * rewrite process_command_help. eexists. split; [reflexivity|].
        split; [apply HI | now left].
    + exists s. split; [now apply process_command_other|].
      split; [apply HI | now left].
Qed.

(** X6: whatever happens next (a key, the escape key, a thread segment),
    the trajectory is left as it is, or it gains exactly one snapshot, the
    stored angles after the event, and then a session is active, or it is
    emptied by a begin-record given outside a session.  Snapshots already
    recorded are never altered. *)
Theorem trajectory_only_grows (ev : Event) (s : State) :
  Inv s ->
  exists s',
    step ev s = Ok tt s'
    /\ (recorded_path s' = recorded_path s
        \/ (is_recording s = true
            /\ recorded_path s' = recorded_path s ++ [current_angles s'])
        \/ (ev = Key "r" /\ is_recording s = false /\ recorded_path s' = [])).
Proof.
  intros HI. destruct ev as [command| |tid].
  - destruct (stop_event s) eqn:Hs.
    + exists s. unfold step, bind, gets. rewrite Hs. split; [reflexivity | now left].
    + destruct (process_command_path command s HI) as (s1 & E & Hk & Hp).
      destruct (step_key_eq command s s1 Hs E Hk) as [o Eo].
      eexists. split; [exact Eo|]. simpl.
      destruct Hp as [Hp|[Hp|(-> & Hp)]]; auto.
  - unfold step, bind, gets. destruct (stop_event s).
    + exists s. split; [reflexivity | now left].
    + eexists. split; [reflexivity | now left].
  - destruct (tick_control tid s HI) as (s' & E & Hp & _).
    exists s'. split; [exact E | now left].
Qed.

Lemma trajectory_only_grows_witness :
  Inv (started_recording boot)
  /\ exists s',
    step (Key "left") (started_recording boot) = Ok tt s'
    /\ (recorded_path s' = recorded_path (started_recording boot)
        \/ (is_recording (started_recording boot) = true
            /\ recorded_path s'
               = recorded_path (started_recording boot) ++ [current_angles s'])
        \/ (Key "left" = Key "r" /\ is_recording (started_recording boot) = false
            /\ recorded_path s' = [])).
Proof.
  assert (HI : Inv (started_recording boot))
    by exact (Inv_started_recording boot Inv_boot).
  split; [exact HI|].
  exact (trajectory_only_grows (Key "left") (started_recording boot) HI).
Defined.

(** ** The stored angles mirror the servos *)















(** ** Edges of playback and homing *)

(** X8: begin-playback with nothing recorded: the thread prints that there
    is nothing to play back and ends at once, without a servo write, without
    touching the stored angles and without the closing lines of a playback. *)
Theorem playback_of_nothing (s : State) :
  Inv s -> stop_event s = false -> is_recording s = false ->
  recorded_path s = [] ->
  exists s' o,
    run [Key "p"; Tick (List.length (threads s))] s = Ok tt s'
    /\ hw s' = hw s
    /\ current_angles s' = current_angles s
    /\ console s' = console s ++ [o; Line "Nothing recorded to play back."]
    /\ nth_error (threads s') (List.length (threads s)) = Some Finished.
Proof.
  intros HI Hs Hr Hp.
  destruct (step_begin_playback s HI Hs Hr) as [o Ep].
  set (s0 := printed o (spawned PlaybackNew s)) in *.
  assert (Ht0 : nth_error (threads s0) (List.length (threads s)) = Some PlaybackNew)
    by apply nth_error_snoc.
  pose proof (tick_eq _ _ _ s0 _ Ht0 (playback_path_empty s0 Hp)) as Et.
  eexists. exists o.
  split.
  { rewrite (run_cons (Key "p") _ s s0 Ep).
    apply (run_cons (Tick (List.length (threads s))) [] s0 _ Et). }
  simpl. split; [reflexivity|]. split; [reflexivity|].
  split; [now rewrite <- app_assoc|].
  apply nth_error_replace_nth. rewrite length_app. simpl. lia.
Qed.

Lemma playback_of_nothing_witness :
  (Inv boot /\ stop_event boot = false /\ is_recording boot = false
   /\ recorded_path boot = [])
  /\ exists s' o,
    run [Key "p"; Tick (List.length (threads boot))] boot = Ok tt s'
    /\ hw s' = hw boot
    /\ current_angles s' = current_angles boot
    /\ console s' = console boot ++ [o; Line "Nothing recorded to play back."]
    /\ nth_error (threads s') (List.length (threads boot)) = Some Finished.
Proof.
  split; [split; [exact Inv_boot | repeat split]|].
  exact (playback_of_nothing boot Inv_boot eq_refl eq_refl eq_refl).
Defined.

(** X9: a begin-record given while a playback thread is between two steps
    empties the list the thread iterates over: the thread's next segment
    finds the list exhausted and ends the playback without a further
    write. *)
Theorem record_during_playback_ends_it (tid i : nat) (s : State) :
  Inv s -> stop_event s = false -> is_recording s = false ->
  nth_error (threads s) tid = Some (PlaybackSleeping i) ->
  exists s',
    run [Key "r"; Tick tid] s = Ok tt s'
    /\ hw s' = hw s
    /\ current_angles s' = current_angles s
    /\ recorded_path s' = []
    /\ is_recording s' = true
    /\ In (Line "--- Playback Finished ---") (console s')
    /\ nth_error (threads s') tid = Some Finished.
Proof.
  intros HI Hs Hr Ht.
  destruct (step_key_eq "r" s (started_recording s) Hs) as [o1 E1];
    [now rewrite process_command_r, Hr | apply HI |].
  set (sr := printed o1 (started_recording s)) in *.
  assert (HIr : Inv sr) by now apply Inv_printed, Inv_started_recording.
  destruct (playback_last_tick tid i sr) as [o2 E2];
    [split; assumption | simpl; lia |].
  eexists. split.
  { rewrite (run_cons (Key "r") _ s sr E1). apply (run_cons (Tick tid) [] sr _ E2). }
  simpl. repeat (split; [reflexivity|]).
  split; [rewrite !in_app_iff; simpl; tauto|].
  apply nth_error_replace_nth. eapply nth_error_lt, Ht.
Qed.

Lemma Inv_playback_under_way : Inv playback_under_way.
Proof.
  destruct (run_inv [Key "p"; Tick 0] _ Inv_three_moves_recorded) as (s & E & HI).
  unfold playback_under_way. now rewrite E.
Qed.

Lemma record_during_playback_ends_it_witness :
  (Inv playback_under_way /\ stop_event playback_under_way = false
   /\ is_recording playback_under_way = false
   /\ nth_error (threads playback_under_way) 0 = Some (PlaybackSleeping 1))
  /\ exists s',
    run [Key "r"; Tick 0] playback_under_way = Ok tt s'
    /\ hw s' = hw playback_under_way
    /\ current_angles s' = current_angles playback_under_way
    /\ recorded_path s' = []
    /\ is_recording s' = true
    /\ In (Line "--- Playback Finished ---") (console s')
    /\ nth_error (threads s') 0 = Some Finished.
Proof.
  split; [split; [exact Inv_playback_under_way | repeat split]|].
  exact (record_during_playback_ends_it 0 1 playback_under_way
           Inv_playback_under_way eq_refl eq_refl eq_refl).
Defined.

Lemma home_end_console s :
  Dict.keys (current_angles s) = JOINTS ->
  exists cells points,
    home_end s =
    Ok Finished
       (printed (Status cells points)
          (if stop_event s then s
           else printed (Line "Arm has returned to neutral position.") s)).
Proof.
  intros Hk. unfold home_end, bind at 1, gets at 1.
  destruct (stop_event s) eqn:Hs; simpl.
  - destruct (print_status_eq s Hk) as [cells E].
    do 2 eexists. unfold bind, ret. rewrite E. reflexivity.
  - destruct (print_status_eq (printed (Line "Arm has returned to neutral position.") s) Hk)
      as [cells E].
    do 2 eexists. unfold bind, print, modify. unfold printed in E at 1. rewrite E.
    reflexivity.
Qed.

(** X10: a homing thread that wakes up with the stop signal set does not
    move: it writes no servo, leaves the stored angles at the progress made
    so far and ends; it prints the interruption when a joint was still off
    neutral, and never the line that the arm has returned. *)
Theorem homing_interrupted (tid : nat) (temp_angles : Dict.t Z) (s : State) :
  Inv s -> stop_event s = true ->
  nth_error (threads s) tid = Some (HomeSleeping temp_angles) ->
  exists s' out,
    step (Tick tid) s = Ok tt s'
    /\ hw s' = hw s
    /\ current_angles s' = current_angles s
    /\ nth_error (threads s') tid = Some Finished
    /\ console s' = console s ++ out
    /\ ~ In (Line "Arm has returned to neutral position.") out
    /\ (off_neutral temp_angles = true ->
        In (Line "Return to neutral interrupted.") out).
Proof.
  intros HI Hs Ht.
  assert (Hk : Dict.keys temp_angles = JOINTS).
  { pose proof (inv_threads _ HI) as Hf. rewrite Forall_forall in Hf.
    exact (Hf _ (nth_error_In _ _ Ht)). }
  assert (Hlt : (tid < List.length (threads s))%nat) by (eapply nth_error_lt, Ht).
  destruct (off_neutral temp_angles) eqn:Hoff.
  - destruct (home_end_console (printed (Line "Return to neutral interrupted.") s))
      as (cells & points & E); [apply HI|].
    simpl stop_event in E. rewrite Hs in E.
    rewrite <- (home_while_stop temp_angles s Hk Hoff Hs) in E.
    eexists. exists [Line "Return to neutral interrupted."; Status cells points].
    split; [rewrite step_tick; exact (tick_eq tid _ _ s _ Ht E)|].
    simpl. split; [reflexivity|]. split; [reflexivity|].
    split; [now apply nth_error_replace_nth|].
    split; [now rewrite <- app_assoc|].
    split; [|tauto].
    intros [H|[H|[]]]; discriminate H.
  - destruct (home_end_console s) as (cells & points & E); [apply HI|].
    rewrite Hs in E. rewrite <- (home_while_done temp_angles s Hk Hoff) in E.
    eexists. exists [Status cells points].
    split; [rewrite step_tick; exact (tick_eq tid _ _ s _ Ht E)|].
    simpl. split; [reflexivity|]. split; [reflexivity|].
    split; [now apply nth_error_replace_nth|].
    split; [reflexivity|].
    split; [|discriminate].
    intros [H|[]]; discriminate H.
Qed.

Lemma Inv_homing_stopped : Inv homing_stopped.
Proof.
  destruct (run_inv [Key "up"; Key "up"; Key "h"; Tick 0; Esc] boot Inv_boot)
    as (s & E & HI).
  unfold homing_stopped. now rewrite E.
Qed.

Lemma homing_interrupted_witness :
  (Inv homing_stopped /\ stop_event homing_stopped = true
   /\ nth_error (threads homing_stopped) 0
      = Some (HomeSleeping (current_angles homing_stopped)))
  /\ exists s' out,
    step (Tick 0) homing_stopped = Ok tt s'
    /\ hw s' = hw homing_stopped
    /\ current_angles s' = current_angles homing_stopped
    /\ nth_error (threads s') 0 = Some Finished
    /\ console s' = console homing_stopped ++ out
    /\ ~ In (Line "Arm has returned to neutral position.") out
    /\ (off_neutral (current_angles homing_stopped) = true ->
        In (Line "Return to neutral interrupted.") out).
Proof.
  split; [split; [exact Inv_homing_stopped | split; reflexivity]|].
  exact (homing_interrupted 0 (current_angles homing_stopped) homing_stopped
           Inv_homing_stopped eq_refl eq_refl).
Defined.

(** X11: a homing thread decides on its own copy of the angles, taken when
    it started: once that copy is at neutral the next segment ends the
    thread and prints that the arm has returned, without a servo write and
    without looking at the stored angles, which a manual move made in the
    meantime has left elsewhere. *)
Theorem homing_ends_on_its_own_copy (tid : nat) (temp_angles : Dict.t Z)
        (s : State) :
  Inv s -> stop_event s = false ->
  nth_error (threads s) tid = Some (HomeSleeping temp_angles) ->
  off_neutral temp_angles = false ->
  exists s' o,
    step (Tick tid) s = Ok tt s'
    /\ temp_angles = NEUTRAL_ANGLES
    /\ hw s' = hw s
    /\ current_angles s' = current_angles s
    /\ console s' = console s ++ [Line "Arm has returned to neutral position."; o]
    /\ nth_error (threads s') tid = Some Finished.
Proof.
  intros HI Hs Ht Hoff.
  assert (Hk : Dict.keys temp_angles = JOINTS).
  { pose proof (inv_threads _ HI) as Hf. rewrite Forall_forall in Hf.
    exact (Hf _ (nth_error_In _ _ Ht)). }
  destruct (home_end_console s) as (cells & points & E); [apply HI|].
  rewrite Hs in E. rewrite <- (home_while_done temp_angles s Hk Hoff) in E.
  eexists. exists (Status cells points).
  split; [rewrite step_tick; exact (tick_eq tid _ _ s _ Ht E)|].
  split.
  { apply distance_zero_neutral; [exact Hk|].
    now apply off_neutral_distance. }
  simpl. split; [reflexivity|]. split; [reflexivity|].
  split; [now rewrite <- app_assoc|].
  apply nth_error_replace_nth. eapply nth_error_lt, Ht.
Qed.

Lemma Inv_moved_during_homing : Inv moved_during_homing.
Proof.
  destruct (run_inv [Key "up"; Key "h"; Tick 0; Tick 0; Tick 0; Tick 0; Tick 0;
                     Key "w"] boot Inv_boot) as (s & E & HI).
  unfold moved_during_homing. now rewrite E.
Qed.

Lemma homing_ends_on_its_own_copy_witness :
  (Inv moved_during_homing /\ stop_event moved_during_homing = false
   /\ nth_error (threads moved_during_homing) 0 = Some (HomeSleeping NEUTRAL_ANGLES)
   /\ off_neutral NEUTRAL_ANGLES = false)
  /\ Dict.get "elbow" (current_angles moved_during_homing) = Some 105
  /\ exists s' o,
    step (Tick 0) moved_during_homing = Ok tt s'
    /\ NEUTRAL_ANGLES = NEUTRAL_ANGLES
    /\ hw s' = hw moved_during_homing
    /\ current_angles s' = current_angles moved_during_homing
    /\ console s' = console moved_during_homing
                    ++ [Line "Arm has returned to neutral position."; o]
    /\ nth_error (threads s') 0 = Some Finished.
Proof.
  split; [split; [exact Inv_moved_during_homing | repeat split]|].
  split; [reflexivity|].
  exact (homing_ends_on_its_own_copy 0 NEUTRAL_ANGLES moved_during_homing
           Inv_moved_during_homing eq_refl eq_refl eq_refl).
Defined.

(** ** The main loop *)

Lemma try_pass_process_command command s :
  Inv s ->
  exists s', try_pass (process_command command) s = Ok tt s' /\ Inv s'
             /\ stop_event s' = stop_event s.
Proof.
  intros HI. destruct (process_command_inv command s HI) as (s' & E & HI' & Hs).
  exists s'. unfold try_pass. rewrite E. split; [reflexivity | now split].
Qed.

Lemma special_key_inv key2 s :
  Inv s ->
  exists s', special_key key2 s = Ok tt s' /\ Inv s'
             /\ stop_event s' = stop_event s.
Proof.
  intros HI. unfold special_key.
  repeat (destruct (Byte.eqb key2 _); [now apply try_pass_process_command|]).
  exists s. split; [reflexivity | now split].
Qed.

Lemma normal_key_inv key s :
  Inv s ->
  exists s', normal_key key s = Ok tt s' /\ Inv s'
             /\ stop_event s' = stop_event s.
Proof.
  intros HI. unfold normal_key.
  assert (Hpc : forall c, exists s', (process_command c ;; ret tt) s = Ok tt s'
                          /\ Inv s' /\ stop_event s' = stop_event s).
  { intros c. destruct (process_command_inv c s HI) as (s' & E & HI' & Hs).
    exists s'. rewrite (bind_ok _ _ _ _ _ E). split; [reflexivity | now split]. }
  destruct (decode_utf8 key) as [char|]; [|exists s; split; [reflexivity | now split]].
  destruct (String.eqb char "?"); [apply Hpc|].
  destruct (existsb _ _); [apply Hpc | exists s; split; [reflexivity | now split]].
Qed.

Lemma main_loop_keys_inv n :
  forall keys s,
    (List.length keys <= n)%nat -> Inv s ->
    exists st s',
      main_loop_keys keys s = Ok st s' /\ Inv s'
      /\ (st = Exited <-> stop_event s' = true).
Proof.
  induction n as [|n IH]; intros keys s Hlen HI.
  - destruct keys; [|simpl in Hlen; lia].
    simpl. unfold bind, gets. destruct (stop_event s) eqn:Hs.
    + exists Exited, s. split; [reflexivity|]. split; [exact HI | now split].
    + exists Polling, s. split; [reflexivity|]. split; [exact HI|].
      split; [discriminate | congruence].
  - destruct keys as [|key rest].
    + apply IH; [simpl; lia | exact HI].
    + simpl in Hlen. cbn [main_loop_keys]. unfold bind at 1, gets at 1.
      destruct (stop_event s) eqn:Hs.
      { exists Exited, s. split; [reflexivity|]. split; [exact HI | now split]. }
      destruct (Byte.eqb key Byte.xe0).
      * destruct rest as [|key2 rest'].
        { exists InGetch, s. split; [reflexivity|]. split; [exact HI|].
          split; [discriminate | congruence]. }
        destruct (special_key_inv key2 s HI) as (s1 & E1 & HI1 & _).
        destruct (print_status_eq s1) as [cells E2]; [apply HI1|].
        rewrite (bind_ok _ _ _ _ _ E1), (bind_ok _ _ _ _ _ E2).
        apply IH; [simpl in Hlen; lia | now apply Inv_printed].
      * destruct (Byte.eqb key Byte.x1b).
        { eexists. eexists. split; [reflexivity|].
          split; [now apply Inv_stop, Inv_printed | now split]. }
        destruct (normal_key_inv key s HI) as (s1 & E1 & HI1 & _).
        destruct (print_status_eq s1) as [cells E2]; [apply HI1|].
        rewrite (bind_ok _ _ _ _ _ E1), (bind_ok _ _ _ _ _ E2).
        apply IH; [lia | now apply Inv_printed].
Qed.

(** X12: whatever bytes the keyboard delivers, the main loop started after
    [setup_board] never raises and keeps every stored angle within
    [0, 180]; it has left the loop exactly when the stop signal is set. *)
Theorem keyboard_never_breaks_the_loop (keys : list Byte.byte) :
  exists st s,
    main_loop keys boot = Ok st s
    /\ Dict.keys (current_angles s) = JOINTS
    /\ Forall in_range (Dict.values (current_angles s))
    /\ (st = Exited <-> stop_event s = true).
Proof.
  destruct (print_status_eq boot) as [cells E0]; [reflexivity|].
  match type of E0 with _ = Ok _ ?x => set (s0 := x) in * end.
  destruct (main_loop_keys_inv (List.length keys) keys s0 (le_n _)
              (Inv_printed _ _ Inv_boot)) as (st & s & E & HI & Hst).
  exists st, s. unfold main_loop. rewrite (bind_ok _ _ _ _ _ E0).
  split; [exact E|]. split; [apply HI|]. split; [apply HI | exact Hst].
Qed.

(** The cases of one pass of the loop. *)
Lemma main_loop_keys_stopped keys s :
  stop_event s = true -> main_loop_keys keys s = Ok Exited s.
Proof.
  intros Hs. destruct keys; cbn [main_loop_keys]; unfold bind, gets;
    now rewrite Hs.
Qed.

Lemma main_loop_keys_special key2 rest s :
  stop_event s = false ->
  main_loop_keys (Byte.xe0 :: key2 :: rest) s
  = (special_key key2 ;; print_status ;; main_loop_keys rest) s.
Proof.
  intros Hs. cbn [main_loop_keys]. unfold bind at 1, gets at 1. now rewrite Hs.
Qed.

Lemma main_loop_keys_escape rest s :
  stop_event s = false ->
  main_loop_keys (Byte.x1b :: rest) s
  = Ok Exited (set_stop_event true
                 (printed (Line "'Esc' key pressed. Shutting down...") s)).
Proof.
  intros Hs. cbn [main_loop_keys]. unfold bind at 1, gets at 1. now rewrite Hs.
Qed.

Lemma main_loop_keys_normal key rest s :
  stop_event s = false -> key <> Byte.xe0 -> key <> Byte.x1b ->
  main_loop_keys (key :: rest) s
  = (normal_key key ;; print_status ;; main_loop_keys rest) s.
Proof.
  intros Hs H1 H2. cbn [main_loop_keys]. unfold bind at 1, gets at 1. rewrite Hs.
  destruct (Byte.eqb key Byte.xe0) eqn:E1;
    [apply Byte.byte_dec_bl in E1; contradiction|].
  destruct (Byte.eqb key Byte.x1b) eqn:E2;
    [apply Byte.byte_dec_bl in E2; contradiction|].
  reflexivity.
Qed.

Lemma keys_after_exit_aux n :
  forall pre post s s',
    (List.length pre <= n)%nat ->
    main_loop_keys pre s = Ok Exited s' ->
    main_loop_keys (pre ++ post) s = Ok Exited s'.
Proof.
  induction n as [|n IH]; intros pre post s s' Hlen E;
    (destruct (stop_event s) eqn:Hs;
     [rewrite main_loop_keys_stopped in * by assumption; exact E|]).
  - destruct pre; [|simpl in Hlen; lia].
    simpl in E. unfold bind, gets in E. rewrite Hs in E. discriminate E.
  - destruct pre as [|key rest]; [apply IH; [simpl; lia | exact E]|].
    simpl in Hlen. rewrite <- app_comm_cons.
    destruct (Byte.eqb key Byte.xe0) eqn:E1.
    + apply Byte.byte_dec_bl in E1. subst key.
      destruct rest as [|key2 rest'].
      { simpl in E. unfold bind, gets in E. rewrite Hs in E. discriminate E. }
      rewrite <- app_comm_cons.
      rewrite main_loop_keys_special in * by assumption.
      unfold bind at 1. unfold bind at 1 in E.
      destruct (special_key key2 s) as [? s1|]; [|discriminate E].
      unfold bind at 1. unfold bind at 1 in E.
      destruct (print_status s1) as [? s2|]; [|discriminate E].
      apply IH; [simpl in Hlen; lia | exact E].
    + apply Byte.eqb_false in E1.
      destruct (Byte.eqb key Byte.x1b) eqn:E2.
      * apply Byte.byte_dec_bl in E2. subst key.
        rewrite main_loop_keys_escape in * by assumption. exact E.
      * apply Byte.eqb_false in E2.
        rewrite main_loop_keys_normal in * by assumption.
        unfold bind at 1. unfold bind at 1 in E.
        destruct (normal_key key s) as [? s1|]; [|discriminate E].
        unfold bind at 1. unfold bind at 1 in E.
        destruct (print_status s1) as [? s2|]; [|discriminate E].
        apply IH; [lia | exact E].
Qed.

(** X13: once the loop has been left (the escape key was read, or the stop
    signal was already set), nothing typed afterwards has any effect: the
    bytes that follow are never read. *)
Theorem keys_after_exit_are_dropped (pre post : list Byte.byte) (s s' : State) :
  main_loop_keys pre s = Ok Exited s' ->
  main_loop_keys (pre ++ post) s = Ok Exited s'.
Proof. apply (keys_after_exit_aux (List.length pre)). apply le_n. Qed.

Lemma keys_after_exit_are_dropped_witness :
  main_loop_keys [Byte.x77; Byte.x1b] boot
  = Ok Exited (match main_loop_keys [Byte.x77; Byte.x1b] boot with
               | Ok _ s => s | Raise _ s => s end)
  /\ main_loop_keys ([Byte.x77; Byte.x1b] ++ [Byte.x77; Byte.x68]) boot
     = Ok Exited (match main_loop_keys [Byte.x77; Byte.x1b] boot with
                  | Ok _ s => s | Raise _ s => s end).
Proof.
  assert (E : main_loop_keys [Byte.x77; Byte.x1b] boot
              = Ok Exited (match main_loop_keys [Byte.x77; Byte.x1b] boot with
                           | Ok _ s => s | Raise _ s => s end))
    by (vm_compute; reflexivity).
  split; [exact E|].
  exact (keys_after_exit_are_dropped [Byte.x77; Byte.x1b] [Byte.x77; Byte.x68]
           boot _ E).
Defined.

(** X14: after the prefix byte 0xE0 the next byte is always taken as the
    code of a special key: unless it is one of the four arrow codes it is
    dropped, also when it is the escape byte or a mapped letter, and the
    loop only redraws the status line and goes on. *)
Theorem byte_after_prefix_is_swallowed (key2 : Byte.byte) (rest : list Byte.byte)
        (s : State) :
  stop_event s = false ->
  ~ In key2 [Byte.x48; Byte.x50; Byte.x4b; Byte.x4d] ->
  main_loop_keys (Byte.xe0 :: key2 :: rest) s
  = (print_status ;; main_loop_keys rest) s.
Proof.
  intros Hs Hn. rewrite main_loop_keys_special by assumption.
  assert (Hsk : special_key key2 s = Ok tt s).
  { unfold special_key.
    repeat match goal with
    | |- context [Byte.eqb key2 ?b] =>
        let Hb := fresh "Hb" in
        destruct (Byte.eqb key2 b) eqn:Hb;
        [apply Byte.byte_dec_bl in Hb; exfalso; apply Hn; subst; simpl; tauto|]
    end.
    reflexivity. }
  now rewrite (bind_ok _ _ _ _ _ Hsk).
Qed.

Lemma byte_after_prefix_is_swallowed_witness :
  (stop_event boot = false
   /\ ~ In Byte.x1b [Byte.x48; Byte.x50; Byte.x4b; Byte.x4d])
  /\ main_loop_keys (Byte.xe0 :: Byte.x1b :: [Byte.x77]) boot
     = (print_status ;; main_loop_keys [Byte.x77]) boot.
Proof.
  assert (Hn : ~ In Byte.x1b [Byte.x48; Byte.x50; Byte.x4b; Byte.x4d]).
  { simpl. intros H. repeat (destruct H as [H|H]; [discriminate H|]). exact H. }
  split; [split; [reflexivity | exact Hn]|].
  exact (byte_after_prefix_is_swallowed Byte.x1b [Byte.x77] boot eq_refl Hn).
Defined.

Lemma normal_keys_known char :
  In char NORMAL_KEYS -> In char (MOVE_COMMANDS ++ CONTROL_COMMANDS).
Proof.
  unfold NORMAL_KEYS. simpl. intros H.
  repeat (destruct H as [<-|H]; [tauto|]). contradiction.
Qed.

(** X15: every byte the main loop reads is either ignored or turned into
    one of the seventeen commands that [process_command] knows: the arrow
    codes into the four directions, the question mark into help, twelve
    lower-case letters and digits into themselves.  The final [else] of
    [process_command] is never reached from the keyboard. *)
Theorem keyboard_sends_known_commands (key : Byte.byte) (s : State) :
  (normal_key key s = Ok tt s
   \/ exists command,
        In command (MOVE_COMMANDS ++ CONTROL_COMMANDS)
        /\ normal_key key s = (process_command command ;; ret tt) s)
  /\ (special_key key s = Ok tt s
      \/ exists command,
           In command ["up"; "down"; "left"; "right"]
           /\ special_key key s = try_pass (process_command command) s).
Proof.
  split.
  - unfold normal_key. destruct (decode_utf8 key) as [char|]; [|now left].
    destruct (String.eqb char "?").
    + right. exists "help". split; [simpl; tauto | reflexivity].
    + destruct (existsb (String.eqb char) NORMAL_KEYS) eqn:He; [|now left].
      right. exists char. split; [|reflexivity].
      apply existsb_exists in He. destruct He as (x & Hx & Heq).
      apply String.eqb_eq in Heq. subst. now apply normal_keys_known.
  - unfold special_key.
    repeat (destruct (Byte.eqb key _);
            [right; eexists; split; [|reflexivity]; simpl; tauto|]).
    now left.
Qed.

(** ** The status line *)

Lemma length_append (a b : string) :
  String.length (String.append a b) = (String.length a + String.length b)%nat.
Proof. induction a as [|c a IH]; simpl; [reflexivity | now rewrite IH]. Qed.

Lemma append_empty_r (a : string) : String.append a "" = a.
Proof. induction a as [|c a IH]; simpl; [reflexivity | now rewrite IH]. Qed.

Lemma length_spaces n : String.length (spaces n) = Z.to_nat n.
Proof.
  unfold spaces. induction (Z.to_nat n) as [|k IH]; [reflexivity|].
  destruct k as [|k]; [reflexivity|].
  change (repeat " " (S (S k))) with (" " :: " " :: repeat " " k)%list.
  change (repeat " " (S k)) with (" " :: repeat " " k)%list in IH.
  cbn [String.concat] in *. rewrite !length_append in *. simpl in *. lia.
Qed.

Lemma length_format3 n :
  (3 <= String.length (format3 n))%nat
  /\ ((String.length (str_int n) <= 3)%nat -> String.length (format3 n) = 3%nat).
Proof.
  unfold format3. rewrite length_append, length_spaces. split; lia.
Qed.

Lemma str_int_short n : in_range n -> (String.length (str_int n) <= 3)%nat.
Proof.
  unfold in_range. intros Hr.
  assert (Hall : forallb (fun k => (String.length (str_int (Z.of_nat k)) <=? 3)%nat)
                         (seq 0 181) = true) by (vm_compute; reflexivity).
  rewrite forallb_forall in Hall.
  specialize (Hall (Z.to_nat n)). rewrite Z2Nat.id in Hall by lia.
  apply Nat.leb_le, Hall, in_seq. lia.
Qed.

Lemma length_angle_str b1 b2 sh el ab gr gg :
  String.length (angle_str b1 b2 sh el ab gr gg) =
  (64 + String.length (format3 b1) + String.length (format3 b2)
   + String.length (format3 sh) + String.length (format3 el)
   + String.length (format3 ab) + String.length (format3 gr)
   + String.length (format3 gg))%nat.
Proof.
  unfold angle_str. cbn [String.concat]. rewrite !length_append. simpl. lia.
Qed.

(** The length of the status line, and what the padding adds to it. *)
Lemma status_line_lengths (b1 b2 sh el ab gr gg : Z)
        (points : option nat) :
  status_written b1 b2 sh el ab gr gg points = status_line b1 b2 sh el ab gr gg points
  /\ (86 <= String.length (status_line b1 b2 sh el ab gr gg points))%nat
  /\ (Forall in_range [b1; b2; sh; el; ab; gr; gg] ->
      String.length (status_line b1 b2 sh el ab gr gg None) = 86%nat).
Proof.
  assert (Hlen : forall p,
            String.length (status_line b1 b2 sh el ab gr gg p)
            = (65 + String.length (format3 b1) + String.length (format3 b2)
               + String.length (format3 sh) + String.length (format3 el)
               + String.length (format3 ab) + String.length (format3 gr)
               + String.length (format3 gg) + String.length (rec_str p))%nat).
  { intros p. unfold status_line. cbn [String.length].
    rewrite length_append, length_angle_str. lia. }
  pose proof (proj1 (length_format3 b1)). pose proof (proj1 (length_format3 b2)).
  pose proof (proj1 (length_format3 sh)). pose proof (proj1 (length_format3 el)).
  pose proof (proj1 (length_format3 ab)). pose proof (proj1 (length_format3 gr)).
  pose proof (proj1 (length_format3 gg)).
  assert (Hge : (86 <= String.length (status_line b1 b2 sh el ab gr gg points))%nat)
    by (rewrite Hlen; lia).
  split; [|split; [exact Hge|]].
  - unfold status_written.
    replace (79 - Z.of_nat (String.length (status_line b1 b2 sh el ab gr gg points)))
      with (- Z.of_nat (String.length (status_line b1 b2 sh el ab gr gg points) - 79))
      by lia.
    assert (Hnone : forall z, z <= 0 -> spaces z = "").
    { intros z Hz. unfold spaces. replace (Z.to_nat z) with 0%nat by lia. reflexivity. }
    rewrite Hnone by lia. apply append_empty_r.
  - intros Hr. rewrite Hlen.
    repeat match goal with
    | H : Forall _ (_ :: _) |- _ => inversion H; subst; clear H
    end.
    repeat match goal with
    | H : in_range ?x |- _ =>
        rewrite (proj2 (length_format3 x) (str_int_short x H)); clear H
    end.
    reflexivity.
Qed.

(** X16: the status line is never padded.  Each angle takes three
    characters or more, exactly three for an angle within [0, 180], so the
    line is at least 86 characters long, exactly 86 outside a session with
    in-range angles; the padding to 79 characters therefore never adds a
    space and what is written is the line itself. *)
Theorem status_line_is_never_padded (b1 b2 sh el ab gr gg : Z)
        (points : option nat) :
  status_written b1 b2 sh el ab gr gg points = status_line b1 b2 sh el ab gr gg points
  /\ (86 <= String.length (status_line b1 b2 sh el ab gr gg points))%nat
  /\ (Forall in_range [b1; b2; sh; el; ab; gr; gg] ->
      String.length (status_line b1 b2 sh el ab gr gg None) = 86%nat).
Proof. apply status_line_lengths. Qed.

Lemma status_line_is_never_padded_witness :
  status_written 180 0 175 100 75 90 80 (Some 12%nat)
  = status_line 180 0 175 100 75 90 80 (Some 12%nat)
  /\ (86 <= String.length (status_line 180 0 175 100 75 90 80 (Some 12%nat)))%nat
  /\ (Forall in_range [180; 0; 175; 100; 75; 90; 80] ->
      String.length (status_line 180 0 175 100 75 90 80 None) = 86%nat).
Proof. exact (status_line_is_never_padded 180 0 175 100 75 90 80 (Some 12%nat)). Defined.


